(** * ComfyUI-ParamNodes: a shallow embedding of [nodes.py]

    The module registers seven nodes with the ComfyUI graph runner: five
    scalar parameter nodes, an image-path loader and a two-way model
    switch, plus the [AnyType] wildcard used as a socket type tag.

    Layout of this development:
    - exceptions and the effect monad (I/O trace + exception or value);
    - [Py]: the fragment of the Python data model that decides [!=]
      (classes, method resolution order, rich comparison);
    - [os_path]: the two [posixpath] functions the loader calls;
    - [f32], [ndarray], [np], [torch]: binary32 arithmetic and the shaped
      arrays the loader builds;
    - [PIL] and [Host]: in-memory images as Pillow presents them to the
      loader, and the environment the loader runs in;
    - the node classes themselves, in source order;
    - the notions the properties are stated with and a small concrete
      host, [Demo];
    - the properties. *)

From Stdlib Require Import ZArith NArith Arith List String Ascii Bool Lia.
From Stdlib Require Import Floats.SpecFloat.
Import ListNotations.

Set Implicit Arguments.

Local Open Scope string_scope.
Local Open Scope list_scope.

(* ================================================================== *)
(** * Python exceptions and effects *)

(** The exceptions that can leave [load_image].  [FileNotFoundError] is the
    one raised explicitly on line 150; [PillowError] stands for whatever
    Pillow raises while opening, seeking, loading or converting (the module
    catches none of them); [RuntimeError] is what [torch.cat] raises on
    tensors whose sizes disagree; [IndexError] is list indexing out of
    range; [ValueError] is [Image.getchannel] on an absent band;
    [TypeError] is an ordering comparison no operand supports. *)
Inductive exn : Type :=
| FileNotFoundError (msg : string)
| PillowError (what : string)
| RuntimeError (what : string)
| IndexError
| ValueError (what : string)
| TypeError (what : string).

(** Observable accesses to the file system. *)
Inductive event : Type :=
| EvExists (path : string)      (* os.path.exists(path) *)
| EvOpen (path : string).       (* Image.open(path) and the decoding behind it *)

(** A computation yields the events it performed, in order, and then either
    the exception that ended it or its value. *)
Definition M (A : Type) : Type := (list event * (exn + A))%type.

Definition ret {A} (x : A) : M A := ([], inr x).
Definition raise {A} (e : exn) : M A := ([], inl e).
Definition emit (ev : event) : M unit := ([ev], inr tt).

Definition bind {A B} (m : M A) (k : A -> M B) : M B :=
  match m with
  | (t1, inl e) => (t1, inl e)
  | (t1, inr x) => let '(t2, r) := k x in (t1 ++ t2, r)
  end.

Notation "x <- m ;; k" := (bind m (fun x => k))
  (at level 61, m at next level, right associativity).
Notation "' pat <- m ;; k" := (bind m (fun x => match x with pat => k end))
  (at level 61, pat pattern, m at next level, right associativity).

Definition trace {A} (m : M A) : list event := fst m.
Definition outcome {A} (m : M A) : exn + A := snd m.

(** Python's [seq[i]] on a list. *)
Definition getitem {A} (l : list A) (i : nat) : M A :=
  match nth_error l i with
  | Some x => ret x
  | None => raise IndexError
  end.

(* ================================================================== *)
(** * The Python data model, as far as comparison goes *)

Module Py.

(** The classes of the model: the builtins whose instances travel
    through node sockets and type tags, [AnyType] from line 10, and the
    classes of the host and of other extensions, numbered.  What those
    derive from is theirs to say: [object], [str], [AnyType] itself. *)
Inductive class : Type :=
| Cobject | CNoneType | Cint | Cbool | Cstr | CAnyType
| Cother (k : nat).

(** Objects.  Instances of [AnyType] carry a string like instances of
    [str]; an instance of a foreign class is known by its class and its
    identity (and holds a string or an integer if its class derives from
    [str] or [int], see [str_value] and [int_value]). *)
Inductive obj : Type :=
| VNone
| VBool (b : bool)
| VInt (z : Z)
| VStr (s : string)
| VAnyType (s : string)
| VOther (k : nat) (id : nat).

Definition type (o : obj) : class :=
  match o with
  | VNone => CNoneType
  | VBool _ => Cbool
  | VInt _ => Cint
  | VStr _ => Cstr
  | VAnyType _ => CAnyType
  | VOther k _ => Cother k
  end.

Definition class_eqb (c d : class) : bool :=
  match c, d with
  | Cobject, Cobject | CNoneType, CNoneType | Cint, Cint
  | Cbool, Cbool | Cstr, Cstr | CAnyType, CAnyType => true
  | Cother j, Cother k => Nat.eqb j k
  | _, _ => false
  end.

Inductive cmpop : Type := Py_LT | Py_LE | Py_EQ | Py_NE | Py_GT | Py_GE.

Definition opname (op : cmpop) : string :=
  match op with
  | Py_LT => "__lt__" | Py_LE => "__le__" | Py_EQ => "__eq__"
  | Py_NE => "__ne__" | Py_GT => "__gt__" | Py_GE => "__ge__"
  end.

(** The operator tried on the other operand with the arguments swapped. *)
Definition swapped (op : cmpop) : cmpop :=
  match op with
  | Py_LT => Py_GT | Py_LE => Py_GE | Py_EQ => Py_EQ
  | Py_NE => Py_NE | Py_GT => Py_LT | Py_GE => Py_LE
  end.

(** What a comparison method of the model hands back: a Python bool, or
    [NotImplemented]. *)
Inductive answer : Type :=
| NotImplemented
| Answer (b : bool).

Definition comparisons : list string :=
  ["__lt__"; "__le__"; "__eq__"; "__ne__"; "__gt__"; "__ge__"].

(** The entries the interpreter puts on its own into the dict of a class
    made by a [class] statement without [__slots__] and without a
    docstring, as [AnyType] is: the first four in every version, the
    last two from CPython 3.13 on. *)
Definition class_statement_entries : list string :=
  ["__module__"; "__dict__"; "__weakref__"; "__doc__";
   "__firstlineno__"; "__static_attributes__"].

Section Classes.

(** The foreign classes: the classes behind each of them in its MRO,
    the names their bodies define, what their comparison methods answer
    ([True], [False] or [NotImplemented]), and the string or the integer
    an instance holds when its class derives from [str] or [int]. *)
Variable other_mro : nat -> list class.
Variable other_defines : nat -> string -> bool.
Variable other_compare : nat -> cmpop -> obj -> obj -> answer.
Variable other_text : nat -> nat -> string.
Variable other_number : nat -> nat -> Z.

(** [cls.__mro__]; [class AnyType(str)] puts [str] right behind
    [AnyType]. *)
Definition mro (c : class) : list class :=
  match c with
  | Cobject => [Cobject]
  | Cbool => [Cbool; Cint; Cobject]
  | CAnyType => [CAnyType; Cstr; Cobject]
  | Cother k => Cother k :: other_mro k
  | _ => [c; Cobject]
  end.

Definition issubclass (c d : class) : bool := existsb (class_eqb d) (mro c).

(** [name in cls.__dict__].  For the builtins: the special methods that
    comparison, hashing and printing look up, and [__doc__].  For
    [AnyType]: the [__ne__] of its body and what the [class] statement
    adds. *)
Definition defines (c : class) (name : string) : bool :=
  match c with
  | Cobject =>
      existsb (String.eqb name) (comparisons ++ ["__hash__"; "__repr__"; "__str__"; "__doc__"])
  | CNoneType => existsb (String.eqb name) ["__bool__"; "__repr__"; "__doc__"]
  | Cint =>
      existsb (String.eqb name) (comparisons ++ ["__hash__"; "__repr__"; "__bool__"; "__doc__"])
  | Cbool => existsb (String.eqb name) ["__repr__"; "__doc__"]
  | Cstr =>
      existsb (String.eqb name)
        (comparisons ++ ["__hash__"; "__repr__"; "__str__"; "__len__"; "__doc__"])
  | CAnyType =>
      (String.eqb name "__ne__" || existsb (String.eqb name) class_statement_entries)%bool
  | Cother k => other_defines k name
  end.

(** Attribute lookup on a class: the first class of the MRO whose body
    defines [name]. *)
Definition resolve (c : class) (name : string) : option class :=
  find (fun d => defines d name) (mro c).

Definition isinstance (o : obj) (c : class) : bool := issubclass (type o) c.

(** [v is w].  For the builtin values it is consulted only across
    classes, where it is false. *)
Definition is_ (v w : obj) : bool :=
  match v, w with
  | VNone, VNone => true
  | VBool a, VBool b => Bool.eqb a b
  | VInt a, VInt b => Z.eqb a b
  | VStr a, VStr b => String.eqb a b
  | VAnyType a, VAnyType b => String.eqb a b
  | VOther j a, VOther k b => (Nat.eqb j k && Nat.eqb a b)%bool
  | _, _ => false
  end.

(** The string an instance of [str] or of a subclass holds. *)
Definition str_value (o : obj) : option string :=
  match o with
  | VStr s | VAnyType s => Some s
  | VOther k id => if issubclass (Cother k) Cstr then Some (other_text k id) else None
  | _ => None
  end.

(** The integer an instance of [int] or of a subclass holds. *)
Definition int_value (o : obj) : option Z :=
  match o with
  | VInt z => Some z
  | VBool b => Some (if b then 1%Z else 0%Z)
  | VOther k id => if issubclass (Cother k) Cint then Some (other_number k id) else None
  | _ => None
  end.

(** The class of [w] is a proper subclass of the class of [v]: in
    [v op w] the interpreter then asks [w] first. *)
Definition asked_first (v w : obj) : bool :=
  (negb (class_eqb (type v) (type w)) && issubclass (type w) (type v))%bool.

Definition by_order (op : cmpop) (c : comparison) : bool :=
  match op, c with
  | Py_LT, Lt | Py_LE, Lt | Py_LE, Eq | Py_EQ, Eq
  | Py_NE, Lt | Py_NE, Gt | Py_GT, Gt | Py_GE, Gt | Py_GE, Eq => true
  | _, _ => false
  end.

(** [object.__eq__]: identity, else not implemented. *)
Definition object_eq (v w : obj) : answer :=
  if is_ v w then Answer true else NotImplemented.

(** [str]'s comparisons: both operands must be strings. *)
Definition str_compare (op : cmpop) (v w : obj) : answer :=
  match str_value v, str_value w with
  | Some a, Some b => Answer (by_order op (String.compare a b))
  | _, _ => NotImplemented
  end.

(** [int]'s comparisons: both operands must be integers. *)
Definition int_compare (op : cmpop) (v w : obj) : answer :=
  match int_value v, int_value w with
  | Some a, Some b => Answer (by_order op (Z.compare a b))
  | _, _ => NotImplemented
  end.

(** [__eq__] as found in the body of class [owner]. *)
Definition eq_method (owner : class) (v w : obj) : answer :=
  match owner with
  | Cobject => object_eq v w
  | Cstr => str_compare Py_EQ v w
  | Cint => int_compare Py_EQ v w
  | Cother k => other_compare k Py_EQ v w
  | CNoneType | Cbool | CAnyType => NotImplemented
  end.

(** [object.__ne__]: ask the type's [__eq__] and invert its answer,
    unless that is [NotImplemented]. *)
Definition object_ne (v w : obj) : answer :=
  match resolve (type v) "__eq__" with
  | Some owner =>
      match eq_method owner v w with
      | Answer b => Answer (negb b)
      | NotImplemented => NotImplemented
      end
  | None => NotImplemented
  end.

(** The comparison method for [op] found in the body of class
    [owner], applied to [v] and [w]. *)
Definition method (owner : class) (op : cmpop) (v w : obj) : answer :=
  match owner with
  | CAnyType =>
      (* def __ne__(self, __value: object) -> bool: return False *)
      match op with
      | Py_NE => Answer false
      | _ => NotImplemented
      end
  | Cstr => str_compare op v w
  | Cint => int_compare op v w
  | Cobject =>
      match op with
      | Py_EQ => object_eq v w
      | Py_NE => object_ne v w
      | _ => NotImplemented
      end
  | Cother k => other_compare k op v w
  | CNoneType | Cbool => NotImplemented
  end.

(** The [tp_richcompare] slot of the type of [v]: look the method for
    [op] up along the MRO and call it. *)
Definition tp_richcompare (v w : obj) (op : cmpop) : answer :=
  match resolve (type v) (opname op) with
  | Some owner => method owner op v w
  | None => NotImplemented
  end.

(** [v op w] as the interpreter evaluates it: the right operand goes
    first when its class is a proper subclass of the left one's, then
    the left operand, then the right one if it has not been asked;
    with no answer, [==] and [!=] fall back on identity and the
    orderings raise. *)
Definition richcompare (v w : obj) (op : cmpop) : M bool :=
  let checked_reverse_op :=
    (negb (class_eqb (type v) (type w)) && issubclass (type w) (type v))%bool in
  match (if checked_reverse_op then tp_richcompare w v (swapped op)
         else NotImplemented) with
  | Answer r => ret r
  | NotImplemented =>
      match tp_richcompare v w op with
      | Answer r => ret r
      | NotImplemented =>
          match (if checked_reverse_op then NotImplemented
                 else tp_richcompare w v (swapped op)) with
          | Answer r => ret r
          | NotImplemented =>
              match op with
              | Py_EQ => ret (is_ v w)
              | Py_NE => ret (negb (is_ v w))
              | _ => raise (TypeError "comparison not supported between these instances")
              end
          end
      end
  end.

(** [v != w] and [v == w]. *)
Definition ne (v w : obj) : M bool := richcompare v w Py_NE.
Definition eq (v w : obj) : M bool := richcompare v w Py_EQ.

End Classes.

End Py.

(** Line 14: [any = AnyType("*")]. *)
Definition any : Py.obj := Py.VAnyType "*".

(** Two interpreters to run comparisons in.  In [Plain] every foreign
    class derives from [object], defines nothing and declines every
    comparison.  In [Sub] every foreign class is
    [class Sub(AnyType): def __ne__(self, other): return True]. *)
Module Plain.
Definition mro (k : nat) : list Py.class := [Py.Cobject].
Definition defines (k : nat) (name : string) : bool := false.
Definition compare (k : nat) (op : Py.cmpop) (v w : Py.obj) : Py.answer :=
  Py.NotImplemented.
Definition text (k id : nat) : string := EmptyString.
Definition number (k id : nat) : Z := 0%Z.
End Plain.

Module Sub.
Definition mro (k : nat) : list Py.class := [Py.CAnyType; Py.Cstr; Py.Cobject].
Definition defines (k : nat) (name : string) : bool := String.eqb name "__ne__".
Definition compare (k : nat) (op : Py.cmpop) (v w : Py.obj) : Py.answer :=
  match op with
  | Py.Py_NE => Py.Answer true
  | _ => Py.NotImplemented
  end.
Definition text (k id : nat) : string := "x".
Definition number (k id : nat) : Z := 0%Z.
End Sub.

(* ================================================================== *)
(** * [os.path] (POSIX flavour)

    [os.path] is [posixpath] where ComfyUI runs on Linux or macOS, and
    that is the flavour embedded here.  What the loader does with the
    two functions (which path it tests, opens and names in its error)
    does not depend on what they compute; what is said of absolute
    results does, and is said of POSIX hosts. *)

Module os_path.

Definition sep : ascii := "/"%char.

Definition startswith_sep (s : string) : bool :=
  match s with
  | String c _ => Ascii.eqb c sep
  | EmptyString => false
  end.

Fixpoint endswith_sep (s : string) : bool :=
  match s with
  | EmptyString => false
  | String c EmptyString => Ascii.eqb c sep
  | String _ rest => endswith_sep rest
  end.

(** [posixpath.isabs(s)]: [s.startswith('/')]. *)
Definition isabs (s : string) : bool := startswith_sep s.

(** [posixpath.join(a, b)] for one component [b]. *)
Definition join (a b : string) : string :=
  if startswith_sep b then b
  else if (String.eqb a EmptyString || endswith_sep a)%bool then (a ++ b)%string
  else (a ++ String sep b)%string.

End os_path.

(* ================================================================== *)
(** * binary32 *)

Module f32.

Definition prec : Z := 24.
Definition emax : Z := 128.

Definition t : Type := spec_float.

Definition of_Z (z : Z) : t := binary_normalize prec emax z 0 false.

(** [uint8 -> float32] as [ndarray.astype(np.float32)] does it: exact. *)
Definition of_uint8 (b : Byte.byte) : t := of_Z (Z.of_N (Byte.to_N b)).

Definition zero : t := S754_zero false.
Definition one : t := of_Z 1.
Definition c255 : t := of_Z 255.

Definition div (x y : t) : t := SFdiv prec emax x y.
Definition sub (x y : t) : t := SFsub prec emax x y.
Definition leb (x y : t) : bool := SFleb x y.

(** Membership in the closed interval [[0,1]]. *)
Definition in_unit (x : t) : bool := (leb zero x && leb x one)%bool.

End f32.

(* ================================================================== *)
(** * Shaped arrays: [numpy.ndarray] and [torch.Tensor]

    Both are a shape and the elements in row-major (C) order, which is the
    layout every array in [load_image] has. *)

Record ndarray (A : Type) : Type := mk_ndarray {
  shape : list nat;
  data : list A
}.

Arguments mk_ndarray {A} shape data.

Definition numel (s : list nat) : nat := fold_right Nat.mul 1 s.

(** The data of an array has as many elements as its shape announces. *)
Definition well_shaped {A} (a : ndarray A) : Prop :=
  List.length (data a) = numel (shape a).

Definition tensor : Type := ndarray f32.t.

Fixpoint shape_eqb (s1 s2 : list nat) : bool :=
  match s1, s2 with
  | [], [] => true
  | a :: s1', b :: s2' => (Nat.eqb a b && shape_eqb s1' s2')%bool
  | _, _ => false
  end.

(** Size of the leading dimension, [t.shape[0]]. *)
Definition dim0 {A} (a : ndarray A) : nat := hd 0 (shape a).

(** [t[k]]: the [k]-th slice along the leading dimension. *)
Definition select0 {A} (a : ndarray A) (k : nat) : ndarray A :=
  let s := tl (shape a) in
  mk_ndarray s (firstn (numel s) (skipn (k * numel s) (data a))).

(** [t[row, col]] of a two-dimensional array; [None] for any other rank
    and out of range. *)
Definition at2 {A} (a : ndarray A) (row col : nat) : option A :=
  match shape a with
  | [h; w] =>
      if (Nat.ltb row h && Nat.ltb col w)%bool
      then nth_error (data a) (row * w + col)
      else None
  | _ => None
  end.

(** [t[row, col, ch]] of a three-dimensional array; [None] for any other
    rank and out of range. *)
Definition at3 {A} (a : ndarray A) (row col ch : nat) : option A :=
  match shape a with
  | [h; w; c] =>
      if (Nat.ltb row h && Nat.ltb col w && Nat.ltb ch c)%bool
      then nth_error (data a) ((row * w + col) * c + ch)
      else None
  | _ => None
  end.

Module np.

(** [a.astype(np.float32)] on a [uint8] array. *)
Definition astype_float32 (a : ndarray Byte.byte) : ndarray f32.t :=
  mk_ndarray (shape a) (map f32.of_uint8 (data a)).

(** [a / c] with a float32 array and a Python float: elementwise binary32
    division. *)
Definition true_divide (a : ndarray f32.t) (c : f32.t) : ndarray f32.t :=
  mk_ndarray (shape a) (map (fun x => f32.div x c) (data a)).

End np.

Module torch.

(** [torch.from_numpy(a)]: same shape, same elements. *)
Definition from_numpy (a : ndarray f32.t) : tensor := a.

(** [t[None,]] and [t.unsqueeze(0)]. *)
Definition unsqueeze0 (x : tensor) : tensor :=
  mk_ndarray (1 :: shape x) (data x).

(** [torch.zeros(shape, dtype=torch.float32)]. *)
Definition zeros (s : list nat) : tensor :=
  mk_ndarray s (repeat f32.zero (numel s)).

(** [c - t] for a Python float [c]. *)
Definition rsub (c : f32.t) (x : tensor) : tensor :=
  mk_ndarray (shape x) (map (fun v => f32.sub c v) (data x)).

(** Shape of [x] without its leading dimension; [None] for a scalar. *)
Definition trailing (x : tensor) : option (list nat) :=
  match shape x with
  | [] => None
  | _ :: s => Some s
  end.

Definition same_trailing (s : list nat) (x : tensor) : bool :=
  match trailing x with
  | Some s' => shape_eqb s' s
  | None => false
  end.

(** [torch.cat(ts, dim=0)].  It wants a non-empty list of tensors of at
    least one dimension that agree on every dimension but the first.
    (The legacy exemption for one-dimensional empty tensors cannot fire
    on the tensors of [load_image], which have three or four
    dimensions.) *)
Definition cat (ts : list tensor) : M tensor :=
  match ts with
  | [] => raise (RuntimeError "torch.cat(): expected a non-empty list of Tensors")
  | t0 :: _ =>
      match trailing t0 with
      | None => raise (RuntimeError "zero-dimensional tensor cannot be concatenated")
      | Some s =>
          if forallb (same_trailing s) ts
          then ret (mk_ndarray (list_sum (map (@dim0 _) ts) :: s)
                               (List.concat (map (@data _) ts)))
          else raise (RuntimeError "Sizes of tensors must match except in dimension 0")
      end
  end.

End torch.

(* ================================================================== *)
(** * Pillow images *)

Module PIL.

(** An image in memory: its band names ([im.getbands()]), its size
    ([im.size = (width, height)]) and the 8-bit sample of band number
    [b] at column [x], row [y].  [load_image] reads samples only from
    images in mode RGB (after [convert]) and L (after [getchannel]),
    whose bands are 8 bits wide. *)
Record Image : Type := mk_Image {
  getbands : list string;
  width : nat;
  height : nat;
  sample : nat -> nat -> nat -> Byte.byte
}.

(** ['A' in im.getbands()]. *)
Definition has_band (name : string) (im : Image) : bool :=
  existsb (String.eqb name) (getbands im).

(** [tuple.index(name)]. *)
Fixpoint index (name : string) (bands : list string) : option nat :=
  match bands with
  | [] => None
  | b :: rest =>
      if String.eqb b name then Some 0
      else option_map S (index name rest)
  end.

(** Band number [b] of [im] as an image of mode L and of the size of
    [im]. *)
Definition band (im : Image) (b : nat) : Image :=
  mk_Image ["L"] (width im) (height im) (fun _ x y => sample im b x y).

(** [im.getchannel(name)]; [ValueError] if [im] has no such band. *)
Definition getchannel (im : Image) (name : string) : M Image :=
  match index name (getbands im) with
  | Some b => ret (band im b)
  | None => raise (ValueError "The image has no channel")
  end.

(** The image of mode RGB and of the size of [im] whose pixel at column
    [x], row [y] is [px x y]. *)
Definition rgb (im : Image) (px : nat -> nat -> Byte.byte * Byte.byte * Byte.byte)
  : Image :=
  mk_Image ["R"; "G"; "B"] (width im) (height im)
    (fun b x y =>
       let '(r, g, bl) := px x y in
       match b with 0 => r | 1 => g | _ => bl end).

(** [np.array(im)] for an image with 8-bit bands: shape
    [(height, width)] for one band and [(height, width, bands)]
    otherwise, rows first, then columns, then bands. *)
Definition to_array (im : Image) : ndarray Byte.byte :=
  let nb := List.length (getbands im) in
  mk_ndarray
    (match getbands im with
     | [_] => [height im; width im]
     | _ => [height im; width im; nb]
     end)
    (flat_map (fun y =>
       flat_map (fun x =>
         map (fun b => sample im b x y) (seq 0 nb))
         (seq 0 (width im)))
       (seq 0 (height im))).

End PIL.

(** The part of the world [load_image] runs in: where ComfyUI is installed,
    which paths exist, what Pillow decodes from a path (the frames that
    [ImageSequence.Iterator] yields, in order), and Pillow's orientation
    and colour conversions.  Each Pillow call may raise instead, with
    the exception it names; the file system stands still during a call,
    so what Pillow raises on a path that exists is never the missing-file
    error of line 150. *)
Record Host : Type := mk_Host {
  base_path : string;                                   (* folder_paths.base_path *)
  path_exists : string -> bool;                         (* os.path.exists *)
  decode : string -> string + list PIL.Image;           (* Image.open, then the frames *)
  transpose : PIL.Image -> string + PIL.Image;          (* ImageOps.exif_transpose *)
  rgb_of : PIL.Image -> string + (nat -> nat -> Byte.byte * Byte.byte * Byte.byte)
                                                        (* the pixels of im.convert("RGB") *)
}.

(** Results of Pillow calls enter the monad with their exceptions wrapped. *)
Definition pillow {A} (r : string + A) : M A :=
  match r with
  | inl what => raise (PillowError what)
  | inr x => ret x
  end.

(* ================================================================== *)
(** * Input schemas

    What [INPUT_TYPES] returns: a dict from a section name (only
    ["required"] occurs) to a dict from input names to a tuple of a type
    tag and, for some inputs, a dict of widget options.  Dicts are
    association lists in source order. *)

Module f64.

Definition prec : Z := 53.
Definition emax : Z := 1024.

Definition of_Z (z : Z) : spec_float := binary_normalize prec emax z 0 false.

(** The literal [n.0] and its negation, for an integer [n] that binary64
    holds exactly. *)
Definition whole (z : Z) : spec_float := of_Z z.
Definition minus (x : spec_float) : spec_float := SFopp x.

(** The literal [0.01]: the binary64 number nearest to one hundredth. *)
Definition hundredth : spec_float := SFdiv prec emax (of_Z 1) (of_Z 100).

End f64.

(** The values that occur in the option dicts. *)
Inductive option_value : Type :=
| OStr (s : string)
| OBool (b : bool)
| OInt (z : Z)
| OFloat (f : spec_float).

(** [(tag,)] or [(tag, {option: value, ...})]. *)
Definition widget : Type := (string * option (list (string * option_value)))%type.

Definition input_types : Type := list (string * list (string * widget)).

(** [d.get(key)] on an association list. *)
Fixpoint assoc {V : Type} (key : string) (d : list (string * V)) : option V :=
  match d with
  | [] => None
  | (k, v) :: rest => if String.eqb k key then Some v else assoc key rest
  end.

(* ================================================================== *)
(** * The nodes

    Every node class names its entry point in [FUNCTION]; the host calls
    it with the declared inputs and takes the elements of the returned
    tuple as the node's outputs, in order.  Tuples are lists here.  None
    of the classes keeps state, so [self] is left out. *)

(** Lines 17-36. *)
Module ParamString.
Definition CATEGORY : string := "Params/Input".
Definition FUNCTION : string := "get_value".
Definition RETURN_TYPES : list Py.obj := [Py.VStr "STRING"].
Definition RETURN_NAMES : list string := ["value"].

Definition INPUT_TYPES : input_types :=
  [("required",
    [("value", ("STRING", Some [("default", OStr EmptyString); ("multiline", OBool true)]))])].

(** The methods of the class body with their parameters ([self] and
    [cls] left out). *)
Definition methods : list (string * list string) :=
  [("INPUT_TYPES", []); ("get_value", ["value"])].

Definition get_value {A : Type} (value : A) : M (list A) := ret [value].
End ParamString.

(** Lines 38-57. *)
Module ParamInt.
Definition CATEGORY : string := "Params/Input".
Definition FUNCTION : string := "get_value".
Definition RETURN_TYPES : list Py.obj := [Py.VStr "INT"].
Definition RETURN_NAMES : list string := ["value"].

Definition INPUT_TYPES : input_types :=
  [("required",
    [("value", ("INT", Some [("default", OInt 0); ("min", OInt 0);
                             ("max", OInt 0xffffffffffffffff)]))])].

(** The methods of the class body with their parameters ([self] and
    [cls] left out). *)
Definition methods : list (string * list string) :=
  [("INPUT_TYPES", []); ("get_value", ["value"])].

Definition get_value {A : Type} (value : A) : M (list A) := ret [value].
End ParamInt.

(** Lines 59-84. *)
Module ParamFloat.
Definition CATEGORY : string := "Params/Input".
Definition FUNCTION : string := "get_value".
Definition RETURN_TYPES : list Py.obj := [Py.VStr "FLOAT"].
Definition RETURN_NAMES : list string := ["value"].

Definition INPUT_TYPES : input_types :=
  [("required",
    [("value", ("FLOAT", Some [("default", OFloat (f64.whole 1));
                               ("min", OFloat (f64.minus (f64.whole 100)));
                               ("max", OFloat (f64.whole 100));
                               ("step", OFloat f64.hundredth);
                               ("display", OStr "number")]))])].

(** The methods of the class body with their parameters ([self] and
    [cls] left out). *)
Definition methods : list (string * list string) :=
  [("INPUT_TYPES", []); ("get_value", ["value"])].

Definition get_value {A : Type} (value : A) : M (list A) := ret [value].
End ParamFloat.

(** Lines 86-105. *)
Module ParamBoolean.
Definition CATEGORY : string := "Params/Input".
Definition FUNCTION : string := "get_value".
Definition RETURN_TYPES : list Py.obj := [Py.VStr "BOOLEAN"].
Definition RETURN_NAMES : list string := ["value"].

Definition INPUT_TYPES : input_types :=
  [("required", [("value", ("BOOLEAN", Some [("default", OBool true)]))])].

(** The methods of the class body with their parameters ([self] and
    [cls] left out). *)
Definition methods : list (string * list string) :=
  [("INPUT_TYPES", []); ("get_value", ["value"])].

Definition get_value {A : Type} (value : A) : M (list A) := ret [value].
End ParamBoolean.

(** Lines 107-127. *)
Module ParamUniversal.
Definition CATEGORY : string := "Params/Input".
Definition FUNCTION : string := "get_value".
Definition RETURN_TYPES : list Py.obj := [any].
Definition RETURN_NAMES : list string := ["value"].

Definition INPUT_TYPES : input_types :=
  [("required",
    [("value", ("STRING", Some [("default", OStr "None"); ("multiline", OBool false)]))])].

(** The methods of the class body with their parameters ([self] and
    [cls] left out). *)
Definition methods : list (string * list string) :=
  [("INPUT_TYPES", []); ("get_value", ["value"])].

Definition get_value {A : Type} (value : A) : M (list A) := ret [value].
End ParamUniversal.

(** Lines 129-178. *)
Module ParamImage.
Definition CATEGORY : string := "Params/Input".
Definition FUNCTION : string := "load_image".
Definition RETURN_TYPES : list Py.obj := [Py.VStr "IMAGE"; Py.VStr "MASK"].

Definition INPUT_TYPES : input_types :=
  [("required",
    [("image_path", ("STRING", Some [("default", OStr "input/example.png")]))])].

(** The methods of the class body with their parameters ([self] and [s]
    left out). *)
Definition methods : list (string * list string) :=
  [("INPUT_TYPES", []); ("load_image", ["image_path"])].

Section Loader.

Variable host : Host.

(** Lines 144-147: the path after the first [if]. *)
Definition resolved (image_path : string) : string :=
  if negb (os_path.isabs image_path)
  then os_path.join (base_path host) image_path
  else image_path.

(** [os.path.exists(p)], [Image.open(p)] with
    [ImageSequence.Iterator], [ImageOps.exif_transpose(i)]. *)
Definition os_path_exists (p : string) : M bool :=
  _ <- emit (EvExists p) ;; ret (path_exists host p).

Definition Image_open (p : string) : M (list PIL.Image) :=
  _ <- emit (EvOpen p) ;; pillow (decode host p).

Definition exif_transpose (i : PIL.Image) : M PIL.Image :=
  pillow (transpose host i).

(** [i.convert("RGB")]: an image of mode RGB and of the size of [i],
    with the pixels Pillow's colour conversion gives. *)
Definition convert_RGB (i : PIL.Image) : M PIL.Image :=
  px <- pillow (rgb_of host i) ;;
  ret (PIL.rgb i px).

(** Lines 157-169: the body of the loop, up to the two [append]s; it
    yields [image] and [mask.unsqueeze(0)]. *)
Definition frame (i : PIL.Image) : M (tensor * tensor) :=
  i <- exif_transpose i ;;
  image <- convert_RGB i ;;
  let image := np.true_divide (np.astype_float32 (PIL.to_array image)) f32.c255 in
  let image := torch.unsqueeze0 (torch.from_numpy image) in
  mask <- (if PIL.has_band "A" i then
             a <- PIL.getchannel i "A" ;;
             let mask := np.true_divide (np.astype_float32 (PIL.to_array a)) f32.c255 in
             ret (torch.rsub f32.one (torch.from_numpy mask))
           else
             ret (torch.zeros [64; 64])) ;;
  ret (image, torch.unsqueeze0 mask).

(** Lines 156-169: the loop over the frames, with the two lists it
    appends to. *)
Fixpoint frames (it : list PIL.Image) (output_images output_masks : list tensor)
  : M (list tensor * list tensor) :=
  match it with
  | [] => ret (output_images, output_masks)
  | i :: rest =>
      '(image, mask) <- frame i ;;
      frames rest (output_images ++ [image]) (output_masks ++ [mask])
  end.

(** Lines 171-176. *)
Definition stack (output_images output_masks : list tensor) : M (tensor * tensor) :=
  if Nat.ltb 1 (List.length output_images) then
    output_image <- torch.cat output_images ;;
    output_mask <- torch.cat output_masks ;;
    ret (output_image, output_mask)
  else
    output_image <- getitem output_images 0 ;;
    output_mask <- getitem output_masks 0 ;;
    ret (output_image, output_mask).

(** Lines 143-178. *)
Definition load_image (image_path : string) : M (tensor * tensor) :=
  let image_path := resolved image_path in
  found <- os_path_exists image_path ;;
  if negb found then
    raise (FileNotFoundError ("Image not found at path: " ++ image_path)%string)
  else
    img <- Image_open image_path ;;
    '(output_images, output_masks) <- frames img [] [] ;;
    stack output_images output_masks.

(** The loader with lines 171-176 replaced by the two [torch.cat]
    calls alone: step 6 of the design document without its exception for
    a single frame. *)
Definition stack_always (output_images output_masks : list tensor) : M (tensor * tensor) :=
  output_image <- torch.cat output_images ;;
  output_mask <- torch.cat output_masks ;;
  ret (output_image, output_mask).

Definition load_image_stacking (image_path : string) : M (tensor * tensor) :=
  let image_path := resolved image_path in
  found <- os_path_exists image_path ;;
  if negb found then
    raise (FileNotFoundError ("Image not found at path: " ++ image_path)%string)
  else
    img <- Image_open image_path ;;
    '(output_images, output_masks) <- frames img [] [] ;;
    stack_always output_images output_masks.

End Loader.
End ParamImage.

(** Lines 182-207. *)
Module HelperModelSwitch.
Definition CATEGORY : string := "Helpers/Logic".
Definition FUNCTION : string := "switch".
Definition RETURN_TYPES : list Py.obj := [Py.VStr "MODEL"].
Definition RETURN_NAMES : list string := ["model"].

Definition INPUT_TYPES : input_types :=
  [("required",
    [("model_a", ("MODEL", None));
     ("model_b", ("MODEL", None));
     ("select_b", ("BOOLEAN", Some [("default", OBool true)]))])].

(** The methods of the class body with their parameters ([self] and
    [cls] left out). *)
Definition methods : list (string * list string) :=
  [("INPUT_TYPES", []); ("switch", ["model_a"; "model_b"; "select_b"])].

Definition switch {A : Type} (model_a model_b : A) (select_b : bool) : M (list A) :=
  if select_b then ret [model_b] else ret [model_a].
End HelperModelSwitch.

(** The value the host reads from output socket [slot] of a node that
    returned [m]. *)
Definition output {A} (m : M (list A)) (slot : nat) : option A :=
  match outcome m with
  | inr outs => nth_error outs slot
  | inl _ => None
  end.

(** Lines 211-219. *)
Definition NODE_CLASS_MAPPINGS : list (string * string) :=
  [("ParamString", ParamString.FUNCTION);
   ("ParamInt", ParamInt.FUNCTION);
   ("ParamFloat", ParamFloat.FUNCTION);
   ("ParamBoolean", ParamBoolean.FUNCTION);
   ("ParamUniversal", ParamUniversal.FUNCTION);
   ("ParamImage", ParamImage.FUNCTION);
   ("HelperModelSwitch", HelperModelSwitch.FUNCTION)].

(** What the host reads off a node class: its class attributes, its
    schema and its methods. *)
Record node_class : Type := mk_node_class {
  nc_CATEGORY : string;
  nc_FUNCTION : string;
  nc_RETURN_TYPES : list Py.obj;
  nc_RETURN_NAMES : option (list string);      (* ParamImage declares none *)
  nc_INPUT_TYPES : input_types;
  nc_methods : list (string * list string)
}.

(** Lines 211-219, with the classes themselves as values. *)
Definition node_classes : list (string * node_class) :=
  [("ParamString",
    mk_node_class ParamString.CATEGORY ParamString.FUNCTION ParamString.RETURN_TYPES
      (Some ParamString.RETURN_NAMES) ParamString.INPUT_TYPES ParamString.methods);
   ("ParamInt",
    mk_node_class ParamInt.CATEGORY ParamInt.FUNCTION ParamInt.RETURN_TYPES
      (Some ParamInt.RETURN_NAMES) ParamInt.INPUT_TYPES ParamInt.methods);
   ("ParamFloat",
    mk_node_class ParamFloat.CATEGORY ParamFloat.FUNCTION ParamFloat.RETURN_TYPES
      (Some ParamFloat.RETURN_NAMES) ParamFloat.INPUT_TYPES ParamFloat.methods);
   ("ParamBoolean",
    mk_node_class ParamBoolean.CATEGORY ParamBoolean.FUNCTION ParamBoolean.RETURN_TYPES
      (Some ParamBoolean.RETURN_NAMES) ParamBoolean.INPUT_TYPES ParamBoolean.methods);
   ("ParamUniversal",
    mk_node_class ParamUniversal.CATEGORY ParamUniversal.FUNCTION
      ParamUniversal.RETURN_TYPES
      (Some ParamUniversal.RETURN_NAMES) ParamUniversal.INPUT_TYPES ParamUniversal.methods);
   ("ParamImage",
    mk_node_class ParamImage.CATEGORY ParamImage.FUNCTION ParamImage.RETURN_TYPES
      None ParamImage.INPUT_TYPES ParamImage.methods);
   ("HelperModelSwitch",
    mk_node_class HelperModelSwitch.CATEGORY HelperModelSwitch.FUNCTION
      HelperModelSwitch.RETURN_TYPES
      (Some HelperModelSwitch.RETURN_NAMES) HelperModelSwitch.INPUT_TYPES
      HelperModelSwitch.methods)].

(** Lines 221-229. *)
Definition NODE_DISPLAY_NAME_MAPPINGS : list (string * string) :=
  [("ParamString", "String Param");
   ("ParamInt", "Integer Param");
   ("ParamFloat", "Float Param");
   ("ParamBoolean", "Boolean Param");
   ("ParamUniversal", "Universal Param (for Combos)");
   ("ParamImage", "Image Path Param");
   ("HelperModelSwitch", "Model Switch")].

(** The names the host passes as keyword arguments: the keys of the
    ["required"] section. *)
Definition required_inputs (c : node_class) : list string :=
  match assoc "required" (nc_INPUT_TYPES c) with
  | Some inputs => map fst inputs
  | None => []
  end.

(** [lo <= v <= hi] for two option values of the same numeric kind. *)
Definition within (lo v hi : option_value) : bool :=
  match lo, v, hi with
  | OInt a, OInt x, OInt b => (Z.leb a x && Z.leb x b)%bool
  | OFloat a, OFloat x, OFloat b => (SFleb a x && SFleb x b)%bool
  | _, _, _ => false
  end.

(** A widget whose options give a default, a minimum and a maximum has
    its default between the two. *)
Definition default_in_range (w : widget) : bool :=
  match snd w with
  | Some opts =>
      match assoc "default" opts, assoc "min" opts, assoc "max" opts with
      | Some d, Some lo, Some hi => within lo d hi
      | _, _, _ => true
      end
  | None => true
  end.

(* ================================================================== *)
(** * Notions the properties are stated with *)

(** A tensor with a leading dimension of one: a single frame. *)
Definition unit_batch (x : tensor) : Prop :=
  dim0 x = 1 /\ shape x <> [] /\ well_shaped x.

(** The array [np.array(im).astype(np.float32) / 255.0]. *)
Definition normalized (im : PIL.Image) : ndarray f32.t :=
  np.true_divide (np.astype_float32 (PIL.to_array im)) f32.c255.

(** The mask of a frame before [unsqueeze]. *)
Definition mask_plane (j : PIL.Image) : tensor :=
  match PIL.index "A" (PIL.getbands j) with
  | Some b => torch.rsub f32.one (torch.from_numpy (normalized (PIL.band j b)))
  | None => torch.zeros [64; 64]
  end.

(** [sub in s] for strings. *)
Definition contains (s sub : string) : Prop :=
  exists before after : string, s = (before ++ sub ++ after)%string.

(** The same host installed somewhere else. *)
Definition with_base (host : Host) (base : string) : Host :=
  mk_Host base (path_exists host) (decode host) (transpose host) (rgb_of host).

(** Pillow brings frame [i] to [j] and converts it to RGB. *)
Definition converts (host : Host) (i j : PIL.Image) : Prop :=
  transpose host i = inr j /\ exists px, rgb_of host j = inr px.

(** The shapes of the two arrays the loop makes of a frame, before the
    leading dimension is added. *)
Definition frame_shapes (j : PIL.Image) : list nat * list nat :=
  ([PIL.height j; PIL.width j; 3], shape (mask_plane j)).

(** All frames give arrays of the same shapes. *)
Definition uniform (js : list PIL.Image) : Prop :=
  forall j j', In j js -> In j' js -> frame_shapes j = frame_shapes j'.

(** One of the three colour samples of a pixel. *)
Definition channel (p : Byte.byte * Byte.byte * Byte.byte) (c : nat) : Byte.byte :=
  let '(r, g, bl) := p in
  match c with 0 => r | 1 => g | _ => bl end.

(** The loop stops at a frame with exception [e]: every frame before it
    went through the loop body, and this one raised [e]. *)
Definition stops_at (host : Host) (fs : list PIL.Image) (e : exn) : Prop :=
  exists good i rest,
    fs = good ++ i :: rest /\
    Forall (fun i' => exists r, outcome (ParamImage.frame host i') = inr r) good /\
    outcome (ParamImage.frame host i) = inl e.

(* ================================================================== *)
(** * A small host to run the loader on *)

Module Demo.

(** A frame of [w] by [h] pixels with bands [bands]; the sample of band
    [b] at [(x, y)] is the byte numbered [40 * b + 10 * y + x + k]. *)
Definition img (bands : list string) (w h k : nat) : PIL.Image :=
  PIL.mk_Image bands w h
    (fun b x y =>
       match Byte.of_nat (40 * b + 10 * y + x + k) with
       | Some c => c
       | None => Byte.xff
       end).

Definition rgba_2x3 : PIL.Image := img ["R"; "G"; "B"; "A"] 2 3 0.
Definition rgba_2x3' : PIL.Image := img ["R"; "G"; "B"; "A"] 2 3 100.
Definition rgb_2x3 : PIL.Image := img ["R"; "G"; "B"] 2 3 7.

(** Installed in [/opt/ComfyUI]; three files in [input/]: an opaque
    single-frame image, an animation of two frames with alpha, and a
    file Pillow cannot identify.  No orientation tag anywhere, and
    colour conversion keeps the first three bands. *)
Definition host : Host :=
  mk_Host "/opt/ComfyUI"
    (fun p => existsb (String.eqb p)
       ["/opt/ComfyUI/input/opaque.png"; "/opt/ComfyUI/input/anim.png";
        "/opt/ComfyUI/input/broken.png"])
    (fun p =>
       if String.eqb p "/opt/ComfyUI/input/opaque.png" then inr [rgb_2x3]
       else if String.eqb p "/opt/ComfyUI/input/anim.png" then inr [rgba_2x3; rgba_2x3']
       else inl "cannot identify image file")
    (fun i => inr i)
    (fun i => inr (fun x y => (PIL.sample i 0 x y, PIL.sample i 1 x y, PIL.sample i 2 x y))).

(** The same Pillow over a file system where every path leads to one
    file: of an opaque frame followed by a frame with alpha for [mixed],
    of no frame at all for [empty]. *)
Definition mixed : Host :=
  mk_Host "/opt/ComfyUI" (fun _ => true) (fun _ => inr [rgb_2x3; rgba_2x3])
    (transpose host) (rgb_of host).

Definition empty : Host :=
  mk_Host "/opt/ComfyUI" (fun _ => true) (fun _ => inr [])
    (transpose host) (rgb_of host).

(** And one where every path leads to a file of an opaque frame followed
    by a frame with alpha, both 64 by 64. *)
Definition rgb_64 : PIL.Image := img ["R"; "G"; "B"] 64 64 0.
Definition rgba_64 : PIL.Image := img ["R"; "G"; "B"; "A"] 64 64 0.

Definition mixed64 : Host :=
  mk_Host "/opt/ComfyUI" (fun _ => true) (fun _ => inr [rgb_64; rgba_64])
    (transpose host) (rgb_of host).

End Demo.

(* ================================================================== *)
(** * Properties *)

(** ** The effect monad *)

Section MonadFacts.

Context {A B : Type}.

Lemma bind_ret (x : A) (k : A -> M B) : bind (ret x) k = k x.
Proof. unfold bind, ret. destruct (k x) as [t r]. reflexivity. Qed.

Lemma bind_raise (e : exn) (k : A -> M B) : bind (raise e) k = raise e.
Proof. reflexivity. Qed.

(** A sequence succeeds only if both halves do. *)
Lemma bind_inr (m : M A) (k : A -> M B) (y : B) :
  outcome (bind m k) = inr y ->
  exists x, outcome m = inr x /\ outcome (k x) = inr y.
Proof.
  destruct m as [t1 [e | x]]; simpl; [discriminate |].
  destruct (k x) as [t2 r] eqn:Hk. simpl. intros ->.
  exists x. rewrite Hk. split; reflexivity.
Qed.

(** An exception out of a sequence comes from one of its halves. *)
Lemma bind_inl (m : M A) (k : A -> M B) (e : exn) :
  outcome (bind m k) = inl e ->
  outcome m = inl e \/ exists x, outcome m = inr x /\ outcome (k x) = inl e.
Proof.
  destruct m as [t1 [e' | x]]; simpl.
  - intros [= ->]. left. reflexivity.
  - destruct (k x) as [t2 r] eqn:Hk. simpl. intros ->.
    right. exists x. rewrite Hk. split; reflexivity.
Qed.

Lemma bind_trace_inr (m : M A) (k : A -> M B) (x : A) :
  outcome m = inr x -> trace (bind m k) = trace m ++ trace (k x).
Proof.
  destruct m as [t1 [e | x']]; simpl; [discriminate |].
  intros [= ->]. destruct (k x) as [t2 r]. reflexivity.
Qed.

Lemma bind_silent (m : M A) (k : A -> M B) :
  trace m = [] -> (forall x, trace (k x) = []) -> trace (bind m k) = [].
Proof.
  destruct m as [t1 [e | x]]; simpl; intros -> Hk; [reflexivity |].
  specialize (Hk x). destruct (k x) as [t2 r]. simpl in *. assumption.
Qed.

End MonadFacts.

Lemma pillow_silent {A} (r : string + A) : trace (pillow r) = [].
Proof. destruct r; reflexivity. Qed.

(** ** Scalar parameter nodes and the switch *)

(** C1. Each of the five scalar parameter nodes hands its input back
    unchanged, as the only element of the returned tuple; the call performs
    no I/O and raises nothing, whatever the value is. *)
Theorem get_value_identity (A : Type) (v : A) :
  ParamString.get_value v = ([], inr [v]) /\
  ParamInt.get_value v = ([], inr [v]) /\
  ParamFloat.get_value v = ([], inr [v]) /\
  ParamBoolean.get_value v = ([], inr [v]) /\
  ParamUniversal.get_value v = ([], inr [v]).
Proof. repeat split. Qed.

(** The host reads the input back from output socket 0. *)
Lemma get_value_output (A : Type) (v : A) :
  output (ParamString.get_value v) 0 = Some v /\
  output (ParamInt.get_value v) 0 = Some v /\
  output (ParamFloat.get_value v) 0 = Some v /\
  output (ParamBoolean.get_value v) 0 = Some v /\
  output (ParamUniversal.get_value v) 0 = Some v.
Proof. repeat split. Qed.

(** The entry point registered for each of the five is [get_value]. *)
Lemma get_value_registered :
  forall name, In name ["ParamString"; "ParamInt"; "ParamFloat"; "ParamBoolean"; "ParamUniversal"] ->
  In (name, "get_value") NODE_CLASS_MAPPINGS.
Proof.
  intros name H. simpl in H. unfold NODE_CLASS_MAPPINGS.
  repeat (destruct H as [<- | H]; [simpl; tauto |]). contradiction.
Qed.

(** C2. The switch returns its second model when the flag is true and its
    first when it is false, as the only element of the returned tuple (so
    output socket 0 carries that model); it performs no I/O and raises
    nothing. *)
Theorem switch_selects (A : Type) (a b : A) :
  HelperModelSwitch.switch a b true = ([], inr [b]) /\
  HelperModelSwitch.switch a b false = ([], inr [a]) /\
  output (HelperModelSwitch.switch a b true) 0 = Some b /\
  output (HelperModelSwitch.switch a b false) 0 = Some a.
Proof. repeat split. Qed.

(** ** The any-type marker *)

Section AnyTypeFacts.

Variable other_mro : nat -> list Py.class.
Variable other_defines : nat -> string -> bool.
Variable other_compare : nat -> Py.cmpop -> Py.obj -> Py.obj -> Py.answer.
Variable other_text : nat -> nat -> string.
Variable other_number : nat -> nat -> Z.

Local Abbreviation issubclass := (Py.issubclass other_mro).
Local Abbreviation asked_first := (Py.asked_first other_mro).
Local Abbreviation resolve := (Py.resolve other_mro other_defines).
Local Abbreviation method :=
  (Py.method other_mro other_defines other_compare other_text other_number).
Local Abbreviation tp_richcompare :=
  (Py.tp_richcompare other_mro other_defines other_compare other_text other_number).
Local Abbreviation ne :=
  (Py.ne other_mro other_defines other_compare other_text other_number).
Local Abbreviation eq :=
  (Py.eq other_mro other_defines other_compare other_text other_number).

(** The builtins are no subclasses of [AnyType]: against them the marker
    is asked first, or alone. *)
Lemma builtin_not_asked_first (s : string) (x : Py.obj) :
  (forall k id, x <> Py.VOther k id) -> asked_first (Py.VAnyType s) x = false.
Proof.
  intros Hx. destruct x; try reflexivity. exfalso. eapply Hx. reflexivity.
Qed.

Lemma AnyType_resolves_ne : resolve Py.CAnyType "__ne__" = Some Py.CAnyType.
Proof. reflexivity. Qed.




(** The other way round the marker wins too: with a string on the left,
    [AnyType] is a proper subclass of the left operand's class and is
    asked first. *)
Lemma str_ne_any_is_false (s : string) : ne (Py.VStr s) any = ([], inr false).
Proof. reflexivity. Qed.

Lemma compare_refl (a : string) : String.compare a a = Eq.
Proof.
  pose proof (String.compare_antisym a a) as H.
  destruct (String.compare a a); simpl in H; congruence.
Qed.

Lemma by_order_eq (a b : string) :
  Py.by_order Py.Py_EQ (String.compare a b) = String.eqb a b.
Proof.
  destruct (String.eqb_spec a b) as [<- | Hab].
  - rewrite compare_refl. reflexivity.
  - destruct (String.compare a b) eqn:Hc; try reflexivity.
    exfalso. apply Hab. apply String.compare_eq_iff. exact Hc.
Qed.

(** Equality is the one [str] has. *)
Lemma AnyType_eq_str (a s : string) :
  eq (Py.VAnyType a) (Py.VStr s) = ([], inr (String.eqb a s)).
Proof.
  unfold Py.eq, Py.richcompare, Py.tp_richcompare.
  cbn [Py.type Py.class_eqb Py.issubclass Py.mro existsb negb andb orb Py.swapped Py.opname].
  change (Py.resolve other_mro other_defines Py.Cstr "__eq__") with (Some Py.Cstr).
  change (Py.resolve other_mro other_defines Py.CAnyType "__eq__") with (Some Py.Cstr).
  cbn [Py.method Py.str_compare Py.str_value].
  rewrite by_order_eq. reflexivity.
Qed.

End AnyTypeFacts.



(** ** Lists laid out in rows *)

Section Rows.

Context {A B : Type}.

Lemma flat_map_length_const (f : A -> list B) (n : nat) (l : list A) :
  (forall a, List.length (f a) = n) ->
  List.length (flat_map f l) = List.length l * n.
Proof.
  intros Hf. induction l as [| a l IH]; simpl; [reflexivity |].
  rewrite length_app, Hf, IH. reflexivity.
Qed.

(** Element [j] of row [i], when every row has [n] elements. *)
Lemma nth_error_flat_map_const (f : A -> list B) (n : nat) (l : list A)
      (i j : nat) (a : A) :
  (forall a', List.length (f a') = n) ->
  nth_error l i = Some a -> j < n ->
  nth_error (flat_map f l) (i * n + j) = nth_error (f a) j.
Proof.
  intros Hf. revert i. induction l as [| a0 l IH]; intros i Hi Hj.
  - destruct i; discriminate.
  - destruct i as [| i]; simpl in Hi |- *.
    + injection Hi as ->. apply nth_error_app1. rewrite Hf. exact Hj.
    + rewrite nth_error_app2 by (rewrite Hf; lia).
      rewrite Hf. replace (n + i * n + j - n) with (i * n + j) by lia.
      apply IH; assumption.
Qed.

Lemma flat_map_unit_rows (g : A -> B) (l : list A) :
  flat_map (fun a => [g a]) l = map g l.
Proof. induction l as [| a l IH]; simpl; [reflexivity | now rewrite IH]. Qed.

End Rows.

Lemma nth_error_seq0 (n i : nat) : i < n -> nth_error (seq 0 n) i = Some i.
Proof.
  intros Hi. rewrite (nth_error_nth' _ 0) by (rewrite length_seq; exact Hi).
  rewrite seq_nth by exact Hi. reflexivity.
Qed.

(** The [k]-th block of a concatenation of blocks of [n] elements. *)
Lemma concat_block {A} (n : nat) (ls : list (list A)) :
  Forall (fun l => List.length l = n) ls ->
  forall k l, nth_error ls k = Some l ->
  firstn n (skipn (k * n) (List.concat ls)) = l.
Proof.
  induction 1 as [| l0 ls Hl0 _ IH]; intros k l Hk.
  - destruct k; discriminate.
  - destruct k as [| k]; simpl in Hk |- *.
    + injection Hk as ->. rewrite <- Hl0. rewrite firstn_app, firstn_all.
      rewrite Nat.sub_diag. simpl. apply app_nil_r.
    + rewrite skipn_app, skipn_all2 by (rewrite Hl0; lia).
      rewrite Hl0. replace (n + k * n - n) with (k * n) by lia.
      simpl. apply IH. exact Hk.
Qed.

Lemma shape_eqb_eq (s1 s2 : list nat) : shape_eqb s1 s2 = true <-> s1 = s2.
Proof.
  revert s2. induction s1 as [| a s1 IH]; intros [| b s2]; simpl; split;
    try discriminate; try reflexivity.
  - intros H. apply andb_prop in H as [Hab Hs].
    apply Nat.eqb_eq in Hab. apply IH in Hs. congruence.
  - intros [= -> ->]. rewrite Nat.eqb_refl. simpl. apply IH. reflexivity.
Qed.

(** ** [torch.cat] *)

Lemma cat_silent (ts : list tensor) : trace (torch.cat ts) = [].
Proof.
  unfold torch.cat. destruct ts as [| t0 ts]; [reflexivity |].
  destruct (torch.trailing t0); [| reflexivity].
  destruct (forallb _ _); reflexivity.
Qed.

Lemma cat_raises (ts : list tensor) (e : exn) :
  outcome (torch.cat ts) = inl e -> exists what, e = RuntimeError what.
Proof.
  unfold torch.cat. destruct ts as [| t0 ts]; simpl.
  - intros [= <-]. eauto.
  - destruct (torch.trailing t0); simpl.
    + destruct (_ && _)%bool; simpl; [discriminate | intros [= <-]; eauto].
    + intros [= <-]. eauto.
Qed.

(** What a concatenation that went through looks like. *)
Lemma cat_inr (ts : list tensor) (r : tensor) :
  outcome (torch.cat ts) = inr r ->
  exists s,
    Forall (fun x => torch.trailing x = Some s) ts /\
    r = mk_ndarray (list_sum (map (@dim0 _) ts) :: s) (List.concat (map (@data _) ts)).
Proof.
  unfold torch.cat. destruct ts as [| t0 ts]; [discriminate |].
  destruct (torch.trailing t0) as [s |] eqn:Ht0; [| discriminate].
  destruct (forallb (torch.same_trailing s) (t0 :: ts)) eqn:Hall; [| discriminate].
  simpl. intros [= <-]. exists s. split; [| reflexivity].
  rewrite forallb_forall in Hall. apply Forall_forall. intros x Hx.
  specialize (Hall x Hx). unfold torch.same_trailing in Hall.
  destruct (torch.trailing x) as [s' |]; [| discriminate].
  apply shape_eqb_eq in Hall. congruence.
Qed.

Lemma unit_batch_shape (x : tensor) (s : list nat) :
  unit_batch x -> torch.trailing x = Some s -> shape x = 1 :: s.
Proof.
  unfold unit_batch, dim0, torch.trailing. intros (Hd & _ & _).
  destruct (shape x) as [| d s']; [discriminate |].
  simpl in Hd. intros [= ->]. congruence.
Qed.

Lemma select0_unit (x : tensor) (s : list nat) :
  shape x = 1 :: s -> well_shaped x -> select0 x 0 = mk_ndarray s (data x).
Proof.
  unfold select0, well_shaped. intros -> Hw. simpl in *.
  rewrite Nat.add_0_r in Hw. rewrite <- Hw, firstn_all. reflexivity.
Qed.

(** Concatenating single frames: as many slices as frames, and slice [k]
    is frame [k]. *)
Lemma cat_unit_batches (ts : list tensor) (r : tensor) :
  Forall unit_batch ts ->
  outcome (torch.cat ts) = inr r ->
  dim0 r = List.length ts /\
  forall k x, nth_error ts k = Some x -> select0 r k = select0 x 0.
Proof.
  intros Hunit Hcat. apply cat_inr in Hcat as (s & Htr & ->).
  assert (Hshape : Forall (fun x => shape x = 1 :: s /\ well_shaped x) ts).
  { rewrite Forall_forall in *. intros x Hx. split.
    - apply unit_batch_shape; auto.
    - apply Hunit; assumption. }
  split.
  - change (list_sum (map (@dim0 _) ts) = List.length ts). clear Htr Hunit.
    induction Hshape as [| x ts [Hx _] _ IH]; simpl; [reflexivity |].
    rewrite IH. unfold dim0. rewrite Hx. reflexivity.
  - intros k x Hk.
    assert (Hx : shape x = 1 :: s /\ well_shaped x).
    { rewrite Forall_forall in Hshape. apply Hshape.
      eapply nth_error_In; eassumption. }
    destruct Hx as [Hx Hw]. rewrite (select0_unit Hx Hw).
    unfold select0. simpl. f_equal.
    apply concat_block.
    + apply Forall_map. eapply Forall_impl; [| exact Hshape].
      intros y [Hy Hwy]. unfold well_shaped in Hwy. rewrite Hwy, Hy. simpl. lia.
    + apply map_nth_error. exact Hk.
Qed.

Lemma cat_singleton (x : tensor) :
  torch.cat [torch.unsqueeze0 x] = ret (torch.unsqueeze0 x).
Proof.
  unfold torch.cat, torch.trailing, torch.same_trailing, torch.trailing.
  simpl. rewrite (proj2 (shape_eqb_eq (shape x) (shape x)) eq_refl). simpl.
  unfold torch.unsqueeze0, dim0. simpl. rewrite app_nil_r. reflexivity.
Qed.

Lemma unsqueeze0_unit_batch (x : tensor) :
  well_shaped x -> unit_batch (torch.unsqueeze0 x).
Proof.
  unfold unit_batch, well_shaped, dim0. simpl. intros ->.
  repeat split; [discriminate | lia].
Qed.

Lemma select0_unsqueeze0 (x : tensor) :
  well_shaped x -> select0 (torch.unsqueeze0 x) 0 = x.
Proof.
  intros Hw. rewrite (@select0_unit _ (shape x)).
  - destruct x; reflexivity.
  - reflexivity.
  - apply unsqueeze0_unit_batch. exact Hw.
Qed.

(** ** binary32 samples *)

(** Every 8-bit sample divided by 255 lands in the closed unit interval. *)
Lemma normalized_sample_in_unit (b : Byte.byte) :
  f32.in_unit (f32.div (f32.of_uint8 b) f32.c255) = true.
Proof. destruct b; vm_compute; reflexivity. Qed.

(** So does one minus it. *)
Lemma inverted_sample_in_unit (b : Byte.byte) :
  f32.in_unit (f32.sub f32.one (f32.div (f32.of_uint8 b) f32.c255)) = true.
Proof. destruct b; vm_compute; reflexivity. Qed.

(** ** Arrays out of images *)

Lemma to_array_length (im : PIL.Image) :
  List.length (data (PIL.to_array im)) =
  PIL.height im * (PIL.width im * List.length (PIL.getbands im)).
Proof.
  unfold PIL.to_array. simpl.
  rewrite (flat_map_length_const _ (n := PIL.width im * List.length (PIL.getbands im))).
  - now rewrite length_seq.
  - intros y. rewrite (flat_map_length_const _ (n := List.length (PIL.getbands im))).
    + now rewrite length_seq.
    + intros x. now rewrite length_map, length_seq.
Qed.

Lemma to_array_well_shaped (im : PIL.Image) : well_shaped (PIL.to_array im).
Proof.
  unfold well_shaped. rewrite to_array_length. unfold PIL.to_array. simpl.
  destruct (PIL.getbands im) as [| b0 [| b1 bs]]; simpl; lia.
Qed.

Lemma normalized_shape (im : PIL.Image) :
  shape (normalized im) = shape (PIL.to_array im).
Proof. reflexivity. Qed.

Lemma normalized_data (im : PIL.Image) :
  data (normalized im) =
  map (fun b => f32.div (f32.of_uint8 b) f32.c255) (data (PIL.to_array im)).
Proof. unfold normalized, np.true_divide, np.astype_float32. simpl. apply map_map. Qed.

Lemma normalized_well_shaped (im : PIL.Image) : well_shaped (normalized im).
Proof.
  unfold well_shaped. rewrite normalized_data, length_map, normalized_shape.
  apply to_array_well_shaped.
Qed.

Lemma normalized_samples (im : PIL.Image) (v : f32.t) :
  In v (data (normalized im)) ->
  exists b : Byte.byte, v = f32.div (f32.of_uint8 b) f32.c255 /\ f32.in_unit v = true.
Proof.
  rewrite normalized_data, in_map_iff. intros (b & <- & _).
  exists b. split; [reflexivity | apply normalized_sample_in_unit].
Qed.

(** Row [y], column [x] of the array of a single-band image. *)
Lemma to_array_single_band (name : string) (w h : nat)
      (smp : nat -> nat -> nat -> Byte.byte) (x y : nat) :
  x < w -> y < h ->
  nth_error (data (PIL.to_array (PIL.mk_Image [name] w h smp))) (y * w + x) =
  Some (smp 0 x y).
Proof.
  intros Hx Hy. unfold PIL.to_array. simpl PIL.getbands. simpl List.length.
  simpl data. simpl PIL.width. simpl PIL.height.
  assert (Hrow : forall y0,
            flat_map (fun x0 => [smp 0 x0 y0]) (seq 0 w)
            = map (fun x0 => smp 0 x0 y0) (seq 0 w)).
  { intros y0. apply flat_map_unit_rows. }
  rewrite (nth_error_flat_map_const _ (n := w) (seq 0 h) y (j := x) (a := y)).
  - cbv beta. rewrite Hrow, nth_error_map, nth_error_seq0 by exact Hx. reflexivity.
  - intros y0. cbv beta. now rewrite Hrow, length_map, length_seq.
  - apply nth_error_seq0. exact Hy.
  - exact Hx.
Qed.

Lemma has_band_index (name : string) (im : PIL.Image) :
  if PIL.has_band name im
  then exists b, PIL.index name (PIL.getbands im) = Some b
  else PIL.index name (PIL.getbands im) = None.
Proof.
  unfold PIL.has_band. induction (PIL.getbands im) as [| b0 bs IH]; simpl.
  - reflexivity.
  - rewrite (String.eqb_sym name b0). destruct (String.eqb b0 name); simpl.
    + eauto.
    + destruct (existsb _ bs).
      * destruct IH as [b ->]. simpl. eauto.
      * rewrite IH. reflexivity.
Qed.

(** ** One frame *)

Lemma rsub_well_shaped (c : f32.t) (x : tensor) :
  well_shaped x -> well_shaped (torch.rsub c x).
Proof. unfold well_shaped, torch.rsub. cbn [shape data]. now rewrite length_map. Qed.

Lemma zeros_well_shaped (s : list nat) : well_shaped (torch.zeros s).
Proof. unfold well_shaped, torch.zeros. cbn [shape data]. apply repeat_length. Qed.

Lemma mask_plane_well_shaped (j : PIL.Image) : well_shaped (mask_plane j).
Proof.
  unfold mask_plane. destruct (PIL.index "A" (PIL.getbands j)) as [b |].
  - apply rsub_well_shaped, normalized_well_shaped.
  - apply zeros_well_shaped.
Qed.

Lemma mask_plane_opaque (j : PIL.Image) :
  PIL.has_band "A" j = false -> mask_plane j = torch.zeros [64; 64].
Proof.
  intros H. pose proof (has_band_index "A" j) as Hi. rewrite H in Hi.
  unfold mask_plane. now rewrite Hi.
Qed.

Lemma at2_in_range {A} (a : ndarray A) (h w row col : nat) :
  shape a = [h; w] -> row < h -> col < w ->
  at2 a row col = nth_error (data a) (row * w + col).
Proof.
  intros Hs Hr Hc. unfold at2. rewrite Hs.
  apply Nat.ltb_lt in Hr, Hc. now rewrite Hr, Hc.
Qed.

Lemma mask_plane_alpha (j : PIL.Image) (b : nat) :
  PIL.index "A" (PIL.getbands j) = Some b ->
  shape (mask_plane j) = [PIL.height j; PIL.width j] /\
  forall x y, x < PIL.width j -> y < PIL.height j ->
    at2 (mask_plane j) y x =
    Some (f32.sub f32.one (f32.div (f32.of_uint8 (PIL.sample j b x y)) f32.c255)).
Proof.
  intros Hb. unfold mask_plane. rewrite Hb. split; [reflexivity |].
  intros x y Hx Hy.
  rewrite (@at2_in_range _ _ (PIL.height j) (PIL.width j)); [| reflexivity | assumption ..].
  unfold torch.rsub, torch.from_numpy. cbn [data].
  rewrite normalized_data, map_map, nth_error_map.
  unfold PIL.band. rewrite to_array_single_band by assumption. reflexivity.
Qed.

Section LoaderFacts.

Variable host : Host.

Local Abbreviation resolved := (ParamImage.resolved host).
Local Abbreviation frame := (ParamImage.frame host).
Local Abbreviation frames := (ParamImage.frames host).
Local Abbreviation load_image := (ParamImage.load_image host).

(** The loop body, case by case: Pillow fails in [exif_transpose], or in
    [convert], or the body yields the normalized RGB array and the mask,
    each with a leading dimension of one. *)
Lemma frame_cases (i : PIL.Image) :
  frame i =
  match transpose host i with
  | inl what => raise (PillowError what)
  | inr j =>
      match rgb_of host j with
      | inl what => raise (PillowError what)
      | inr px => ret (torch.unsqueeze0 (normalized (PIL.rgb j px)),
                       torch.unsqueeze0 (mask_plane j))
      end
  end.
Proof.
  unfold ParamImage.frame, ParamImage.exif_transpose, ParamImage.convert_RGB.
  destruct (transpose host i) as [what | j]; [reflexivity |].
  simpl pillow. rewrite bind_ret.
  destruct (rgb_of host j) as [what | px]; [reflexivity |].
  simpl pillow. rewrite !bind_ret.
  pose proof (has_band_index "A" j) as Hi. unfold mask_plane, PIL.getchannel.
  destruct (PIL.has_band "A" j).
  - destruct Hi as [b Hb]. rewrite Hb. rewrite !bind_ret. reflexivity.
  - rewrite Hi. rewrite bind_ret. reflexivity.
Qed.

Lemma frame_silent (i : PIL.Image) : trace (frame i) = [].
Proof.
  rewrite frame_cases. destruct (transpose host i); [reflexivity |].
  destruct (rgb_of host _); reflexivity.
Qed.

Lemma frame_raises (i : PIL.Image) (e : exn) :
  outcome (frame i) = inl e -> exists what, e = PillowError what.
Proof.
  rewrite frame_cases. destruct (transpose host i) as [what | j].
  - intros [= <-]. eauto.
  - destruct (rgb_of host j) as [what | px]; [| discriminate].
    intros [= <-]. eauto.
Qed.

Lemma frame_inr (i : PIL.Image) (image mask : tensor) :
  outcome (frame i) = inr (image, mask) ->
  exists j px,
    transpose host i = inr j /\ rgb_of host j = inr px /\
    image = torch.unsqueeze0 (normalized (PIL.rgb j px)) /\
    mask = torch.unsqueeze0 (mask_plane j).
Proof.
  rewrite frame_cases. destruct (transpose host i) as [what | j] eqn:Hj; [discriminate |].
  destruct (rgb_of host j) as [what | px] eqn:Hpx; [discriminate |].
  intros [= <- <-]. exists j, px. auto.
Qed.

Lemma frame_unit_batches (i : PIL.Image) (r : tensor * tensor) :
  outcome (frame i) = inr r -> unit_batch (fst r) /\ unit_batch (snd r).
Proof.
  destruct r as [image mask]. intros H.
  apply frame_inr in H as (j & px & _ & _ & -> & ->). split.
  - apply unsqueeze0_unit_batch, normalized_well_shaped.
  - apply unsqueeze0_unit_batch, mask_plane_well_shaped.
Qed.

(** ** The loop *)

Lemma frames_silent (it : list PIL.Image) (ai am : list tensor) :
  trace (frames it ai am) = [].
Proof.
  revert ai am. induction it as [| i it IH]; intros ai am; [reflexivity |].
  simpl. apply bind_silent; [apply frame_silent |].
  intros [image mask]. apply IH.
Qed.

Lemma frames_raises (it : list PIL.Image) (ai am : list tensor) (e : exn) :
  outcome (frames it ai am) = inl e -> exists what, e = PillowError what.
Proof.
  revert ai am. induction it as [| i it IH]; intros ai am; [discriminate |].
  simpl. intros H. apply bind_inl in H as [H | ([image mask] & _ & H)].
  - eapply frame_raises; eassumption.
  - eapply IH; eassumption.
Qed.

(** A loop that ran to its end appended one pair per frame, in the order
    of the frames. *)
Lemma frames_inr (it : list PIL.Image) (ai am oi om : list tensor) :
  outcome (frames it ai am) = inr (oi, om) ->
  exists rs,
    Forall2 (fun i r => outcome (frame i) = inr r) it rs /\
    oi = ai ++ map fst rs /\ om = am ++ map snd rs.
Proof.
  revert ai am. induction it as [| i it IH]; intros ai am.
  - intros [= <- <-]. exists []. simpl. rewrite !app_nil_r. repeat split. constructor.
  - simpl. intros H. apply bind_inr in H as ([image mask] & Hf & H).
    apply IH in H as (rs & Hrs & -> & ->).
    exists ((image, mask) :: rs). simpl. rewrite <- !app_assoc.
    repeat split. constructor; assumption.
Qed.

(** Conversely, frames that all convert make the loop run to its end. *)
Lemma frames_returns (it : list PIL.Image) (rs : list (tensor * tensor))
      (ai am : list tensor) :
  Forall2 (fun i r => outcome (frame i) = inr r) it rs ->
  frames it ai am = ret (ai ++ map fst rs, am ++ map snd rs).
Proof.
  intros H. revert ai am. induction H as [| i [image mask] it rs Hf _ IH]; intros ai am.
  - simpl. rewrite !app_nil_r. reflexivity.
  - simpl. pose proof (frame_silent i) as Ht.
    destruct (frame i) as [t [e | r]] eqn:Hfr; simpl in Hf, Ht; [discriminate |].
    injection Hf as ->. subst t.
    change (([] : list event), inr (image, mask) : exn + tensor * tensor)
      with (ret (image, mask)).
    rewrite bind_ret, IH, <- !app_assoc. reflexivity.
Qed.

(** ** Stacking *)

Local Abbreviation stack := ParamImage.stack.

Lemma getitem_silent {A} (l : list A) (i : nat) : trace (getitem l i) = [].
Proof. unfold getitem. destruct (nth_error l i); reflexivity. Qed.

Lemma stack_silent (oi om : list tensor) : trace (stack oi om) = [].
Proof.
  unfold ParamImage.stack. destruct (Nat.ltb 1 (List.length oi)).
  - apply bind_silent; [apply cat_silent |]. intros x.
    apply bind_silent; [apply cat_silent |]. reflexivity.
  - apply bind_silent; [apply getitem_silent |]. intros x.
    apply bind_silent; [apply getitem_silent |]. reflexivity.
Qed.

Lemma getitem_raises {A} (l : list A) (i : nat) (e : exn) :
  outcome (getitem l i) = inl e -> e = IndexError.
Proof. unfold getitem. destruct (nth_error l i); [discriminate | now intros [= <-]]. Qed.

Lemma stack_raises (oi om : list tensor) (e : exn) :
  outcome (stack oi om) = inl e -> (exists what, e = RuntimeError what) \/ e = IndexError.
Proof.
  unfold ParamImage.stack. destruct (Nat.ltb 1 (List.length oi)); intros H.
  - left. apply bind_inl in H as [H | (x & _ & H)]; [eapply cat_raises; eassumption |].
    apply bind_inl in H as [H | (y & _ & H)]; [eapply cat_raises; eassumption |].
    discriminate.
  - right. apply bind_inl in H as [H | (x & _ & H)]; [eapply getitem_raises; eassumption |].
    apply bind_inl in H as [H | (y & _ & H)]; [eapply getitem_raises; eassumption |].
    discriminate.
Qed.

Lemma getitem_inr {A} (l : list A) (i : nat) (x : A) :
  outcome (getitem l i) = inr x -> nth_error l i = Some x.
Proof. unfold getitem. destruct (nth_error l i); [now intros [= ->] | discriminate]. Qed.

(** Whichever branch of lines 171-176 ran, the result has one slice per
    frame, and slice [k] is what the loop appended [k]-th. *)
Lemma stack_inr (oi om : list tensor) (img msk : tensor) :
  Forall unit_batch oi -> Forall unit_batch om ->
  List.length oi = List.length om ->
  outcome (stack oi om) = inr (img, msk) ->
  dim0 img = List.length oi /\ dim0 msk = List.length om /\
  (forall k x, nth_error oi k = Some x -> select0 img k = select0 x 0) /\
  (forall k x, nth_error om k = Some x -> select0 msk k = select0 x 0).
Proof.
  intros Hoi Hom Hlen. unfold ParamImage.stack.
  destruct (Nat.ltb 1 (List.length oi)) eqn:Hmany; intros H.
  - apply bind_inr in H as (x & Hx & H). apply bind_inr in H as (y & Hy & H).
    injection H as <- <-.
    destruct (cat_unit_batches Hoi Hx) as [Hd Hs].
    destruct (cat_unit_batches Hom Hy) as [Hd' Hs'].
    auto.
  - apply bind_inr in H as (x & Hx & H). apply bind_inr in H as (y & Hy & H).
    injection H as <- <-. apply getitem_inr in Hx, Hy.
    apply Nat.ltb_ge in Hmany.
    destruct oi as [| x0 [| x1 oi]]; [discriminate | | simpl in Hmany; lia].
    destruct om as [| y0 [| y1 om]]; [discriminate | | discriminate].
    injection Hx as <-. injection Hy as <-.
    inversion Hoi as [| ? ? (Hdx & _) _]. inversion Hom as [| ? ? (Hdy & _) _]. subst.
    repeat split; try assumption.
    + intros [| k] z Hk; [now injection Hk as <- | destruct k; discriminate].
    + intros [| k] z Hk; [now injection Hk as <- | destruct k; discriminate].
Qed.

(** ** The loader as a whole *)

Lemma load_image_cases (image_path : string) :
  load_image image_path =
  let p := resolved image_path in
  if path_exists host p then
    match decode host p with
    | inl what => ([EvExists p; EvOpen p], inl (PillowError what))
    | inr fs =>
        let '(t, r) := ('(oi, om) <- frames fs [] [] ;; stack oi om) in
        (EvExists p :: EvOpen p :: t, r)
    end
  else
    ([EvExists p], inl (FileNotFoundError ("Image not found at path: " ++ p)%string)).
Proof.
  unfold ParamImage.load_image, ParamImage.os_path_exists, ParamImage.Image_open.
  cbv zeta. set (p := resolved image_path).
  destruct (path_exists host p); [| reflexivity].
  destruct (decode host p) as [what | fs]; [reflexivity |].
  cbn. destruct (bind (frames fs [] []) _) as [t r]. reflexivity.
Qed.

Lemma after_loop_silent (fs : list PIL.Image) :
  trace ('(oi, om) <- frames fs [] [] ;; stack oi om) = [].
Proof.
  apply bind_silent; [apply frames_silent |]. intros [oi om]. apply stack_silent.
Qed.

(** The file system is touched once to test the resolved path and, if it
    is there, once more to open it. *)
Lemma load_image_trace (image_path : string) :
  trace (load_image image_path) =
  EvExists (resolved image_path) ::
  (if path_exists host (resolved image_path) then [EvOpen (resolved image_path)] else []).
Proof.
  rewrite load_image_cases. cbv zeta.
  destruct (path_exists host _); [| reflexivity].
  destruct (decode host _) as [what | fs]; [reflexivity |].
  pose proof (after_loop_silent fs) as Ht.
  destruct (bind (frames fs [] []) _) as [t r]. simpl in Ht. subst t. reflexivity.
Qed.

(** What a successful load went through. *)
Lemma load_image_inr (image_path : string) (img msk : tensor) :
  outcome (load_image image_path) = inr (img, msk) ->
  path_exists host (resolved image_path) = true /\
  exists fs rs,
    decode host (resolved image_path) = inr fs /\
    Forall2 (fun i r => outcome (frame i) = inr r) fs rs /\
    outcome (stack (map fst rs) (map snd rs)) = inr (img, msk).
Proof.
  rewrite load_image_cases. cbv zeta.
  destruct (path_exists host _); [| discriminate].
  destruct (decode host _) as [what | fs]; [discriminate |].
  destruct (bind (frames fs [] []) _) as [t r] eqn:Hb. simpl. intros ->.
  split; [reflexivity |].
  assert (Hout : outcome ('(oi, om) <- frames fs [] [] ;; stack oi om) = inr (img, msk))
    by (rewrite Hb; reflexivity).
  apply bind_inr in Hout as ([oi om] & Hfr & Hst).
  apply frames_inr in Hfr as (rs & Hrs & -> & ->).
  exists fs, rs. auto.
Qed.

(** The pairs the loop produced are single frames, as many images as
    masks. *)
Lemma loop_results_unit (fs : list PIL.Image) (rs : list (tensor * tensor)) :
  Forall2 (fun i r => outcome (frame i) = inr r) fs rs ->
  List.length rs = List.length fs /\
  Forall unit_batch (map fst rs) /\ Forall unit_batch (map snd rs).
Proof.
  induction 1 as [| i r fs rs Hr _ (IH1 & IH2 & IH3)]; simpl.
  - repeat split; constructor.
  - apply frame_unit_batches in Hr as [Hi Hm].
    repeat split; [congruence | constructor; assumption ..].
Qed.

End LoaderFacts.

Lemma Forall2_nth_error_l {A B} (R : A -> B -> Prop) (l : list A) (l' : list B) :
  Forall2 R l l' ->
  forall k a, nth_error l k = Some a -> exists b, nth_error l' k = Some b /\ R a b.
Proof.
  induction 1 as [| a0 b0 l l' Hab _ IH]; intros k a Hk.
  - destruct k; discriminate.
  - destruct k as [| k]; simpl in Hk.
    + injection Hk as <-. exists b0. split; [reflexivity | assumption].
    + apply IH. exact Hk.
Qed.

Section LoadedTensors.

Variable host : Host.
Variable image_path : string.
Variables img msk : tensor.

Hypothesis loaded : outcome (ParamImage.load_image host image_path) = inr (img, msk).

(** The slices of what a successful load returns, frame by frame: slice
    [k] of the image tensor is the normalized RGB array of frame [k], and
    slice [k] of the mask tensor is its mask plane. *)
Lemma load_image_slices :
  exists fs,
    decode host (ParamImage.resolved host image_path) = inr fs /\
    dim0 img = List.length fs /\ dim0 msk = List.length fs /\
    forall k i, nth_error fs k = Some i ->
      exists j px,
        transpose host i = inr j /\ rgb_of host j = inr px /\
        outcome (ParamImage.frame host i) =
          inr (torch.unsqueeze0 (normalized (PIL.rgb j px)),
               torch.unsqueeze0 (mask_plane j)) /\
        select0 img k = normalized (PIL.rgb j px) /\
        select0 msk k = mask_plane j.
Proof.
  pose proof loaded as H. apply load_image_inr in H as (_ & fs & rs & Hdec & Hrs & Hst).
  pose proof Hrs as H. apply loop_results_unit in H as (Hlen & Hui & Hum).
  apply stack_inr in Hst as (Hdi & Hdm & Hsi & Hsm);
    [| assumption | assumption | now rewrite !length_map].
  rewrite length_map in Hdi, Hdm.
  exists fs. repeat split; [assumption | congruence | congruence |].
  intros k i Hk.
  destruct (Forall2_nth_error_l Hrs _ Hk) as ([image mask] & Hr & Hfr).
  pose proof Hfr as H. apply frame_inr in H as (j & px & Hj & Hpx & -> & ->).
  exists j, px. repeat split; try assumption.
  - rewrite (Hsi k _ (map_nth_error fst _ _ Hr)). simpl fst.
    apply select0_unsqueeze0, normalized_well_shaped.
  - rewrite (Hsm k _ (map_nth_error snd _ _ Hr)). simpl snd.
    apply select0_unsqueeze0, mask_plane_well_shaped.
Qed.

End LoadedTensors.

(** C3. When [load_image] returns for a file of [N] frames, the image
    tensor and the mask tensor both have [N] as their first dimension, and
    slice [k] of each is what the loop body computes from the [k]-th frame
    of the file. *)
Theorem load_image_frame_count (host : Host) (image_path : string)
        (fs : list PIL.Image) (img msk : tensor) :
  decode host (ParamImage.resolved host image_path) = inr fs ->
  outcome (ParamImage.load_image host image_path) = inr (img, msk) ->
  dim0 img = List.length fs /\ dim0 msk = List.length fs /\
  forall k i, nth_error fs k = Some i ->
    exists image mask,
      outcome (ParamImage.frame host i) = inr (image, mask) /\
      select0 img k = select0 image 0 /\
      select0 msk k = select0 mask 0.
Proof.
  intros Hdec Hload.
  pose proof Hload as H. apply load_image_slices in H as (fs' & Hdec' & Hdi & Hdm & Hk).
  assert (fs' = fs) by congruence. subst fs'.
  repeat split; [assumption .. |].
  intros k i Hi. destruct (Hk k i Hi) as (j & px & _ & _ & Hfr & Hsi & Hsm).
  eexists _, _. split; [exact Hfr |].
  rewrite select0_unsqueeze0 by apply normalized_well_shaped.
  rewrite select0_unsqueeze0 by apply mask_plane_well_shaped.
  auto.
Qed.

Lemma load_image_frame_count_witness :
  exists img msk,
    outcome (ParamImage.load_image Demo.host "input/anim.png") = inr (img, msk) /\
    dim0 img = 2 /\ dim0 msk = 2.
Proof.
  eexists _, _. split; [vm_compute; reflexivity |].
  destruct (@load_image_frame_count Demo.host "input/anim.png"
              [Demo.rgba_2x3; Demo.rgba_2x3'] _ _ eq_refl eq_refl) as (H1 & H2 & _).
  split; assumption.
Defined.

(** C5. In what [load_image] returns, the mask slice of every frame is
    decided by the frame as [exif_transpose] left it: with a band named A
    the slice has the frame's height and width and holds, at every pixel,
    one minus the alpha sample divided by 255 (in binary32); without one it
    is the 64 by 64 plane of zeros. *)
Theorem load_image_mask_planes (host : Host) (image_path : string)
        (fs : list PIL.Image) (img msk : tensor) :
  decode host (ParamImage.resolved host image_path) = inr fs ->
  outcome (ParamImage.load_image host image_path) = inr (img, msk) ->
  forall k i, nth_error fs k = Some i ->
    exists j, transpose host i = inr j /\
      if PIL.has_band "A" j then
        exists b, PIL.index "A" (PIL.getbands j) = Some b /\
          shape (select0 msk k) = [PIL.height j; PIL.width j] /\
          forall x y, x < PIL.width j -> y < PIL.height j ->
            at2 (select0 msk k) y x =
            Some (f32.sub f32.one
                    (f32.div (f32.of_uint8 (PIL.sample j b x y)) f32.c255))
      else
        select0 msk k = mk_ndarray [64; 64] (repeat f32.zero (64 * 64)).
Proof.
  intros Hdec Hload k i Hi.
  pose proof Hload as H. apply load_image_slices in H as (fs' & Hdec' & _ & _ & Hk).
  assert (fs' = fs) by congruence. subst fs'.
  destruct (Hk k i Hi) as (j & px & Hj & _ & _ & _ & ->).
  exists j. split; [exact Hj |].
  pose proof (has_band_index "A" j) as Hb.
  destruct (PIL.has_band "A" j) eqn:Hband.
  - destruct Hb as [b Hb]. exists b. split; [exact Hb |].
    apply mask_plane_alpha. exact Hb.
  - apply mask_plane_opaque. exact Hband.
Qed.

Lemma load_image_mask_planes_witness :
  exists img msk,
    outcome (ParamImage.load_image Demo.host "input/anim.png") = inr (img, msk) /\
    at2 (select0 msk 1) 2 1 =
      Some (f32.sub f32.one (f32.div (f32.of_uint8 Byte.xf1) f32.c255)) /\
    shape (select0 msk 1) = [3; 2].
Proof.
  eexists _, _. split; [vm_compute; reflexivity |].
  destruct (@load_image_mask_planes Demo.host "input/anim.png"
              [Demo.rgba_2x3; Demo.rgba_2x3'] _ _ eq_refl eq_refl
              1 Demo.rgba_2x3' eq_refl) as (j & Hj & H).
  injection Hj as <-.
  change (PIL.has_band "A" Demo.rgba_2x3') with true in H.
  destruct H as (b & Hb & Hshape & Hat).
  injection Hb as <-.
  split; [| exact Hshape].
  apply (Hat 1 2); simpl; lia.
Defined.

(** The same on an opaque frame. *)
Lemma load_image_opaque_mask :
  exists img msk,
    outcome (ParamImage.load_image Demo.host "input/opaque.png") = inr (img, msk) /\
    select0 msk 0 = mk_ndarray [64; 64] (repeat f32.zero (64 * 64)).
Proof. eexists _, _. split; vm_compute; reflexivity. Qed.

(** ** Shape and range of the image tensor *)

Lemma length_concat_const {A} (n : nat) (ls : list (list A)) :
  Forall (fun l => List.length l = n) ls ->
  List.length (List.concat ls) = List.length ls * n.
Proof.
  induction 1 as [| l ls Hl _ IH]; simpl; [reflexivity |].
  rewrite length_app, Hl, IH. reflexivity.
Qed.

Lemma Forall2_In_r {A B} (R : A -> B -> Prop) (l : list A) (l' : list B) (b : B) :
  Forall2 R l l' -> In b l' -> exists a, In a l /\ R a b.
Proof.
  induction 1 as [| a0 b0 l l' Hab _ IH]; simpl; [contradiction |].
  intros [<- | Hb].
  - exists a0. auto.
  - destruct (IH Hb) as (a & Ha & HR). exists a. auto.
Qed.

(** Both branches of lines 171-176 lay the frames out one after the other
    under a leading dimension that counts them. *)
Lemma stack_image_layout (oi om : list tensor) (img msk : tensor) :
  Forall unit_batch oi ->
  outcome (ParamImage.stack oi om) = inr (img, msk) ->
  exists s,
    Forall (fun x => shape x = 1 :: s) oi /\
    shape img = List.length oi :: s /\
    data img = List.concat (map (@data _) oi).
Proof.
  intros Hoi. unfold ParamImage.stack.
  destruct (Nat.ltb 1 (List.length oi)) eqn:Hmany; intros H.
  - apply bind_inr in H as (x & Hx & H). apply bind_inr in H as (y & _ & H).
    injection H as <- _.
    destruct (cat_unit_batches Hoi Hx) as [Hd _].
    apply cat_inr in Hx as (s & Htr & ->).
    exists s. repeat split.
    + rewrite Forall_forall in *. intros z Hz.
      apply unit_batch_shape; auto.
    + change (list_sum (map (@dim0 _) oi) = List.length oi) in Hd.
      cbn [shape]. now rewrite Hd.
  - apply bind_inr in H as (x & Hx & H). apply bind_inr in H as (y & _ & H).
    injection H as <- _. apply getitem_inr in Hx.
    apply Nat.ltb_ge in Hmany.
    destruct oi as [| x0 [| x1 oi]]; [discriminate | | simpl in Hmany; lia].
    injection Hx as <-. inversion Hoi as [| ? ? (Hd & Hne & _) _]. subst.
    unfold dim0 in Hd. destruct (shape x0) as [| d s] eqn:Hs; [contradiction |].
    simpl in Hd. subst d. exists s. repeat split.
    + constructor; [exact Hs | constructor].
    + simpl. now rewrite app_nil_r.
Qed.

Lemma rgb_tensor_shape (j : PIL.Image) (px : nat -> nat -> Byte.byte * Byte.byte * Byte.byte) :
  shape (torch.unsqueeze0 (normalized (PIL.rgb j px))) =
  [1; PIL.height j; PIL.width j; 3].
Proof. reflexivity. Qed.

(** C7. The image tensor [load_image] returns has four dimensions: the
    number of frames, the height and the width that every frame has after
    [exif_transpose], and 3.  Its data fill that shape, and every element
    is an 8-bit sample divided by 255 in binary32, which lies between 0 and
    1 inclusive. *)
Theorem load_image_image_tensor (host : Host) (image_path : string)
        (fs : list PIL.Image) (img msk : tensor) :
  decode host (ParamImage.resolved host image_path) = inr fs ->
  outcome (ParamImage.load_image host image_path) = inr (img, msk) ->
  exists h w,
    shape img = [List.length fs; h; w; 3] /\
    well_shaped img /\
    (forall k i, nth_error fs k = Some i ->
       exists j, transpose host i = inr j /\ PIL.height j = h /\ PIL.width j = w) /\
    (forall v, In v (data img) ->
       exists b : Byte.byte,
         v = f32.div (f32.of_uint8 b) f32.c255 /\ f32.in_unit v = true).
Proof.
  intros Hdec Hload.
  pose proof Hload as H. apply load_image_inr in H as (_ & fs' & rs & Hdec' & Hrs & Hst).
  assert (fs' = fs) by congruence. subst fs'.
  pose proof Hrs as H. apply loop_results_unit in H as (Hlen & Hui & _).
  apply stack_image_layout in Hst as (s & Hshapes & Hshape & Hdata); [| exact Hui].
  rewrite length_map, Hlen in Hshape.
  (* every frame's image has shape 1 :: s, and shape [1; height; width; 3] *)
  assert (Hframe : forall r, In r rs ->
            exists i j px, In i fs /\ transpose host i = inr j /\
              fst r = torch.unsqueeze0 (normalized (PIL.rgb j px)) /\
              s = [PIL.height j; PIL.width j; 3]).
  { intros [image mask] Hr.
    destruct (Forall2_In_r _ Hrs Hr) as (i & Hi & Hfr).
    apply frame_inr in Hfr as (j & px & Hj & _ & -> & _).
    exists i, j, px. repeat split; try assumption.
    rewrite Forall_forall in Hshapes.
    specialize (Hshapes _ (in_map fst _ _ Hr)). cbn [fst] in Hshapes.
    rewrite rgb_tensor_shape in Hshapes. congruence. }
  assert (Hne : exists r, In r rs).
  { destruct rs as [| r0 rs0]; [| exists r0; left; reflexivity].
    (* no frame: the list index on line 175 raised *)
    exfalso. inversion Hrs; subst. rewrite load_image_cases in Hload. cbv zeta in Hload.
    destruct (path_exists host _); [| discriminate].
    rewrite Hdec in Hload. discriminate. }
  assert (Hs : exists h w, s = [h; w; 3]).
  { destruct Hne as [r Hr].
    destruct (Hframe r Hr) as (_ & j & _ & _ & _ & _ & ->). eauto. }
  destruct Hs as (h & w & ->).
  exists h, w. repeat split.
  - exact Hshape.
  - unfold well_shaped. rewrite Hdata, Hshape.
    rewrite (@length_concat_const _ (h * (w * (3 * 1)))).
    + rewrite !length_map, Hlen. reflexivity.
    + apply Forall_map. rewrite Forall_forall in *. intros x Hx.
      apply Hui in Hx as Hu. apply Hshapes in Hx as Hsx.
      destruct Hu as (_ & _ & Hw). unfold well_shaped in Hw.
      rewrite Hw, Hsx. simpl. lia.
  - intros k i Hi.
    destruct (Forall2_nth_error_l Hrs _ Hi) as (r & Hr & Hfr).
    apply nth_error_In in Hr.
    destruct (Hframe r Hr) as (_ & j & px & _ & _ & Hfst & Hs).
    destruct r as [image mask]. 
    apply frame_inr in Hfr as (j' & px' & Hj' & _ & -> & _).
    exists j'. split; [exact Hj' |].
    rewrite Forall_forall in Hshapes.
    specialize (Hshapes _ (in_map fst _ _ Hr)). cbn [fst] in Hshapes.
    rewrite rgb_tensor_shape in Hshapes. split; congruence.
  - intros v Hv. rewrite Hdata in Hv. apply in_concat in Hv as (l & Hl & Hv).
    apply in_map_iff in Hl as (x & <- & Hx).
    apply in_map_iff in Hx as (r & <- & Hr).
    destruct (Hframe r Hr) as (_ & j & px & _ & _ & Hfst & _).
    rewrite Hfst in Hv. cbn [torch.unsqueeze0 data] in Hv.
    eapply normalized_samples. exact Hv.
Qed.

Lemma load_image_image_tensor_witness :
  exists img msk,
    outcome (ParamImage.load_image Demo.host "input/anim.png") = inr (img, msk) /\
    shape img = [2; 3; 2; 3] /\
    Forall (fun v => f32.in_unit v = true) (data img).
Proof.
  eexists _, _. split; [vm_compute; reflexivity |].
  destruct (@load_image_image_tensor Demo.host "input/anim.png"
              [Demo.rgba_2x3; Demo.rgba_2x3'] _ _ eq_refl eq_refl)
    as (h & w & Hshape & _ & _ & Hrange).
  split.
  - reflexivity.
  - apply Forall_forall. intros v Hv.
    destruct (Hrange v Hv) as (b & _ & Hb). exact Hb.
Defined.

(** ** Mask size against image size *)

(** C10. The mask does not follow the image's height and width: the
    slices of a frame without a band named A are [height, width, 3] for the
    image and 64 by 64 for the mask, and there is a load, of an opaque
    image that is not 64 by 64, whose mask differs from its image in both. *)
Theorem mask_size_not_tied_to_image :
  (forall (host : Host) (image_path : string) (fs : list PIL.Image)
          (img msk : tensor) (k : nat) (i j : PIL.Image),
      decode host (ParamImage.resolved host image_path) = inr fs ->
      outcome (ParamImage.load_image host image_path) = inr (img, msk) ->
      nth_error fs k = Some i -> transpose host i = inr j ->
      PIL.has_band "A" j = false ->
      shape (select0 img k) = [PIL.height j; PIL.width j; 3] /\
      shape (select0 msk k) = [64; 64]) /\
  (exists (host : Host) (image_path : string) (img msk : tensor) (h w : nat),
      outcome (ParamImage.load_image host image_path) = inr (img, msk) /\
      shape img = [1; h; w; 3] /\ shape msk = [1; 64; 64] /\
      h <> 64 /\ w <> 64).
Proof.
  split.
  - intros host image_path fs img msk k i j Hdec Hload Hi Hj Hband.
    pose proof Hload as H. apply load_image_slices in H as (fs' & Hdec' & _ & _ & Hk).
    assert (fs' = fs) by congruence. subst fs'.
    destruct (Hk k i Hi) as (j' & px & Hj' & _ & _ & -> & ->).
    assert (j' = j) by congruence. subst j'.
    rewrite (mask_plane_opaque _ Hband). split; reflexivity.
  - exists Demo.host, "input/opaque.png". eexists _, _, 3, 2.
    split; [vm_compute; reflexivity |].
    repeat split; discriminate.
Qed.

Lemma mask_size_not_tied_to_image_witness :
  exists img msk,
    outcome (ParamImage.load_image Demo.host "input/opaque.png") = inr (img, msk) /\
    shape (select0 img 0) = [3; 2; 3] /\ shape (select0 msk 0) = [64; 64].
Proof.
  eexists _, _. split; [vm_compute; reflexivity |].
  exact (proj1 mask_size_not_tied_to_image Demo.host "input/opaque.png"
           [Demo.rgb_2x3] _ _ 0 Demo.rgb_2x3 Demo.rgb_2x3
           eq_refl eq_refl eq_refl eq_refl eq_refl).
Defined.

(** ** The missing-file error *)

Lemma string_app_empty_r (s : string) : (s ++ EmptyString)%string = s.
Proof. induction s as [| c s IH]; simpl; [reflexivity | now rewrite IH]. Qed.

(** Joining a relative path to an absolute base gives an absolute path. *)
Lemma join_isabs (a b : string) :
  os_path.isabs a = true -> os_path.isabs (os_path.join a b) = true.
Proof.
  unfold os_path.join, os_path.isabs.
  destruct (os_path.startswith_sep b) eqn:Hb; [intros _; exact Hb |].
  destruct a as [| c a]; [discriminate |]. intros Hc.
  destruct (String.eqb (String c a) EmptyString || os_path.endswith_sep (String c a))%bool;
    exact Hc.
Qed.

Lemma resolved_isabs (host : Host) (image_path : string) :
  os_path.isabs (base_path host) = true ->
  os_path.isabs (ParamImage.resolved host image_path) = true.
Proof.
  intros Hbase. unfold ParamImage.resolved.
  destruct (os_path.isabs image_path) eqn:Habs; simpl.
  - exact Habs.
  - apply join_isabs. exact Hbase.
Qed.

(** With the path in place, nothing below line 150 raises
    [FileNotFoundError]. *)
Lemma load_image_found_raises (host : Host) (image_path : string) (e : exn) :
  path_exists host (ParamImage.resolved host image_path) = true ->
  outcome (ParamImage.load_image host image_path) = inl e ->
  (exists what, e = PillowError what) \/ (exists what, e = RuntimeError what) \/
  e = IndexError.
Proof.
  intros Hex. rewrite load_image_cases. cbv zeta. rewrite Hex.
  destruct (decode host _) as [what | fs].
  - intros [= <-]. left. eauto.
  - destruct (bind (ParamImage.frames host fs [] []) _) as [t r] eqn:Hb. simpl. intros ->.
    assert (Hout : outcome ('(oi, om) <- ParamImage.frames host fs [] [] ;;
                            ParamImage.stack oi om) = inl e)
      by (rewrite Hb; reflexivity).
    apply bind_inl in Hout as [H | ([oi om] & _ & H)].
    + left. eapply frames_raises. exact H.
    + right. apply stack_raises in H. exact H.
Qed.

(** C4. [load_image] raises [FileNotFoundError] exactly when the resolved
    path does not exist.  Then the message is the fixed prefix followed by
    the resolved path, so it contains that path, which is absolute
    whenever the base directory is; and the only access to the file system
    has been the existence test: the file was not opened. *)
Theorem load_image_missing_file (host : Host) (image_path : string) :
  let p := ParamImage.resolved host image_path in
  let r := ParamImage.load_image host image_path in
  ((exists msg, outcome r = inl (FileNotFoundError msg)) <-> path_exists host p = false) /\
  (path_exists host p = false ->
     outcome r = inl (FileNotFoundError ("Image not found at path: " ++ p)%string) /\
     contains ("Image not found at path: " ++ p)%string p /\
     trace r = [EvExists p] /\
     ~ In (EvOpen p) (trace r)) /\
  (os_path.isabs (base_path host) = true -> os_path.isabs p = true).
Proof.
  intros p r.
  assert (Hmiss : path_exists host p = false ->
            r = ([EvExists p],
                 inl (FileNotFoundError ("Image not found at path: " ++ p)%string))).
  { intros Hex. unfold r. rewrite load_image_cases. cbv zeta. fold p. now rewrite Hex. }
  split; [split | split].
  - intros [msg Hmsg]. destruct (path_exists host p) eqn:Hex; [| reflexivity].
    apply load_image_found_raises in Hmsg; [| exact Hex].
    destruct Hmsg as [[w H] | [[w H] | H]]; discriminate.
  - intros Hex. rewrite (Hmiss Hex). eexists. reflexivity.
  - intros Hex. rewrite (Hmiss Hex). repeat split.
    + exists "Image not found at path: ", EmptyString. now rewrite string_app_empty_r.
    + simpl. intros [H | []]. discriminate.
  - apply resolved_isabs.
Qed.

Lemma load_image_missing_file_witness :
  outcome (ParamImage.load_image Demo.host "input/nothere.png") =
    inl (FileNotFoundError "Image not found at path: /opt/ComfyUI/input/nothere.png") /\
  trace (ParamImage.load_image Demo.host "input/nothere.png") =
    [EvExists "/opt/ComfyUI/input/nothere.png"] /\
  os_path.isabs (ParamImage.resolved Demo.host "input/nothere.png") = true.
Proof.
  destruct (load_image_missing_file Demo.host "input/nothere.png") as (_ & Hmiss & Habs).
  destruct (Hmiss eq_refl) as (Hout & _ & Htrace & _).
  split; [exact Hout |]. split; [exact Htrace |]. exact (Habs eq_refl).
Defined.

(** ** Path resolution *)

Lemma frames_with_base (host : Host) (base : string) (it : list PIL.Image)
      (ai am : list tensor) :
  ParamImage.frames (with_base host base) it ai am = ParamImage.frames host it ai am.
Proof.
  revert ai am. induction it as [| i it IH]; intros ai am; [reflexivity |].
  simpl. change (ParamImage.frame (with_base host base) i) with (ParamImage.frame host i).
  f_equal.
Qed.

(** C6. A relative path is joined to the base directory and an absolute
    one is kept; the existence test comes first and it and the opening of
    the file are both made on the resolved path, and on nothing else; and
    the base directory has no other use: installed elsewhere, the same
    host gives the same result whenever the resolved path is the same,
    as it is for every absolute path. *)
Theorem load_image_path_resolution (host : Host) (image_path : string) :
  let p := ParamImage.resolved host image_path in
  let r := ParamImage.load_image host image_path in
  (os_path.isabs image_path = false -> p = os_path.join (base_path host) image_path) /\
  (os_path.isabs image_path = true -> p = image_path) /\
  hd_error (trace r) = Some (EvExists p) /\
  (forall ev, In ev (trace r) -> ev = EvExists p \/ ev = EvOpen p) /\
  (forall base,
     ParamImage.resolved (with_base host base) image_path = p ->
     ParamImage.load_image (with_base host base) image_path = r) /\
  (forall base,
     os_path.isabs image_path = true ->
     ParamImage.load_image (with_base host base) image_path = r).
Proof.
  intros p r.
  assert (Hsame : forall base,
            ParamImage.resolved (with_base host base) image_path = p ->
            ParamImage.load_image (with_base host base) image_path = r).
  { intros base Hp. unfold r. rewrite !load_image_cases. cbv zeta.
    rewrite Hp. fold p. cbn [with_base path_exists decode].
    destruct (path_exists host p); [| reflexivity].
    destruct (decode host p) as [what | fs]; [reflexivity |].
    assert (Heq : ('(oi, om) <- ParamImage.frames (with_base host base) fs [] [] ;;
                   ParamImage.stack oi om)
                  = ('(oi, om) <- ParamImage.frames host fs [] [] ;;
                     ParamImage.stack oi om))
      by (rewrite frames_with_base; reflexivity).
    rewrite Heq. reflexivity. }
  repeat split.
  - intros Habs. unfold p, ParamImage.resolved. now rewrite Habs.
  - intros Habs. unfold p, ParamImage.resolved. now rewrite Habs.
  - unfold r. rewrite load_image_trace. reflexivity.
  - unfold r. rewrite load_image_trace. fold p. intros ev Hev.
    destruct Hev as [<- | Hev]; [left; reflexivity |].
    destruct (path_exists host p); [| contradiction].
    destruct Hev as [<- | []]. right. reflexivity.
  - exact Hsame.
  - intros base Habs. apply Hsame.
    unfold p, ParamImage.resolved. now rewrite Habs.
Qed.

Lemma load_image_path_resolution_witness :
  ParamImage.resolved Demo.host "input/anim.png" = "/opt/ComfyUI/input/anim.png" /\
  ParamImage.resolved Demo.host "/tmp/a.png" = "/tmp/a.png" /\
  ParamImage.load_image (with_base Demo.host "/srv") "/opt/ComfyUI/input/anim.png" =
  ParamImage.load_image Demo.host "/opt/ComfyUI/input/anim.png".
Proof.
  split; [| split].
  - exact (proj1 (load_image_path_resolution Demo.host "input/anim.png") eq_refl).
  - exact (proj1 (proj2 (load_image_path_resolution Demo.host "/tmp/a.png")) eq_refl).
  - destruct (load_image_path_resolution Demo.host "/opt/ComfyUI/input/anim.png")
      as (_ & _ & _ & _ & _ & Habs).
    exact (Habs "/srv" eq_refl).
Defined.

(** ** Skipping the stacking step *)

Lemma load_image_stacking_cases (host : Host) (image_path : string) :
  ParamImage.load_image_stacking host image_path =
  let p := ParamImage.resolved host image_path in
  if path_exists host p then
    match decode host p with
    | inl what => ([EvExists p; EvOpen p], inl (PillowError what))
    | inr fs =>
        let '(t, r) := ('(oi, om) <- ParamImage.frames host fs [] [] ;;
                        ParamImage.stack_always oi om) in
        (EvExists p :: EvOpen p :: t, r)
    end
  else
    ([EvExists p], inl (FileNotFoundError ("Image not found at path: " ++ p)%string)).
Proof.
  unfold ParamImage.load_image_stacking, ParamImage.os_path_exists, ParamImage.Image_open.
  cbv zeta. set (p := ParamImage.resolved host image_path).
  destruct (path_exists host p); [| reflexivity].
  destruct (decode host p) as [what | fs]; [reflexivity |].
  cbn. destruct (bind (ParamImage.frames host fs [] []) _) as [t r]. reflexivity.
Qed.

(** On the two one-element lists the loop leaves for a single frame,
    indexing and concatenating agree. *)
Lemma stack_single (x y : tensor) :
  ParamImage.stack [torch.unsqueeze0 x] [torch.unsqueeze0 y] =
  ParamImage.stack_always [torch.unsqueeze0 x] [torch.unsqueeze0 y].
Proof.
  unfold ParamImage.stack, ParamImage.stack_always.
  rewrite !cat_singleton. reflexivity.
Qed.

(** C8. For a file of one frame, the loader as written, which takes the
    only element of each list, and the loader that concatenates the two
    one-element lists along the first dimension give the same result:
    the same tensors when the frame converts, the same exception when it
    does not, and the same file accesses. *)
Theorem single_frame_skip_is_stacking (host : Host) (image_path : string)
        (i : PIL.Image) :
  decode host (ParamImage.resolved host image_path) = inr [i] ->
  ParamImage.load_image host image_path =
  ParamImage.load_image_stacking host image_path.
Proof.
  intros Hdec. rewrite load_image_cases, load_image_stacking_cases. cbv zeta.
  destruct (path_exists host _); [| reflexivity].
  rewrite Hdec. cbn [ParamImage.frames]. rewrite frame_cases.
  destruct (transpose host i) as [what | j]; [reflexivity |].
  destruct (rgb_of host j) as [what | px]; [reflexivity |].
  rewrite !bind_ret. cbn [app]. rewrite stack_single. reflexivity.
Qed.

Lemma single_frame_skip_is_stacking_witness :
  ParamImage.load_image Demo.host "input/opaque.png" =
  ParamImage.load_image_stacking Demo.host "input/opaque.png".
Proof.
  exact (@single_frame_skip_is_stacking Demo.host "input/opaque.png" Demo.rgb_2x3 eq_refl).
Defined.

(** With no frame at all the two part ways: an index error on line 175
    against the complaint of [torch.cat] about an empty list. *)
Lemma no_frame_skip_is_not_stacking :
  let host := mk_Host "/" (fun _ => true) (fun _ => inr []) (fun i => inr i)
                      (fun _ => inl "unreachable") in
  outcome (ParamImage.load_image host "a.png") = inl IndexError /\
  outcome (ParamImage.load_image_stacking host "a.png") =
    inl (RuntimeError "torch.cat(): expected a non-empty list of Tensors").
Proof. split; reflexivity. Qed.

(** ** When the loader returns *)

Lemma mask_plane_shape (j : PIL.Image) :
  shape (mask_plane j) =
  if PIL.has_band "A" j then [PIL.height j; PIL.width j] else [64; 64].
Proof.
  pose proof (has_band_index "A" j) as Hb. unfold mask_plane.
  destruct (PIL.has_band "A" j).
  - destruct Hb as [b ->]. reflexivity.
  - rewrite Hb. reflexivity.
Qed.

Lemma cat_returns (ts : list tensor) (s : list nat) :
  ts <> [] -> Forall (fun x => shape x = 1 :: s) ts ->
  exists r, torch.cat ts = ret r.
Proof.
  intros Hne Hall. unfold torch.cat. destruct ts as [| t0 ts]; [contradiction |].
  assert (Hsame : forallb (torch.same_trailing s) (t0 :: ts) = true).
  { apply forallb_forall. rewrite Forall_forall in Hall. intros x Hx.
    unfold torch.same_trailing, torch.trailing. rewrite (Hall x Hx).
    apply shape_eqb_eq. reflexivity. }
  inversion Hall as [| ? ? Ht0 _]; subst.
  unfold torch.trailing at 1. rewrite Ht0, Hsame. eauto.
Qed.

Lemma stack_returns (oi om : list tensor) (s s' : list nat) :
  oi <> [] -> List.length oi = List.length om ->
  Forall (fun x => shape x = 1 :: s) oi ->
  Forall (fun x => shape x = 1 :: s') om ->
  exists img msk, ParamImage.stack oi om = ret (img, msk).
Proof.
  intros Hne Hlen Hoi Hom. unfold ParamImage.stack.
  destruct (Nat.ltb 1 (List.length oi)).
  - destruct (cat_returns Hne Hoi) as [img ->].
    assert (Hne' : om <> []) by (destruct oi, om; simpl in *; congruence).
    destruct (cat_returns Hne' Hom) as [msk ->].
    exists img, msk. reflexivity.
  - destruct oi as [| x oi]; [contradiction |].
    destruct om as [| y om]; [discriminate |].
    exists x, y. reflexivity.
Qed.

(** The loader returns a pair of tensors whenever the path exists, the
    file has at least one frame, Pillow converts every frame, and the
    frames agree on their size and on having a band named A. *)
Lemma load_image_returns (host : Host) (image_path : string)
      (fs : list PIL.Image) (h w : nat) (alpha : bool) :
  path_exists host (ParamImage.resolved host image_path) = true ->
  decode host (ParamImage.resolved host image_path) = inr fs ->
  fs <> [] ->
  Forall (fun i => exists j px,
            transpose host i = inr j /\ rgb_of host j = inr px /\
            PIL.height j = h /\ PIL.width j = w /\ PIL.has_band "A" j = alpha) fs ->
  exists img msk,
    outcome (ParamImage.load_image host image_path) = inr (img, msk).
Proof.
  intros Hex Hdec Hne Hfs.
  set (s' := if alpha then [h; w] else [64; 64]).
  assert (Hrs : exists rs,
            Forall2 (fun i r => outcome (ParamImage.frame host i) = inr r) fs rs /\
            Forall (fun x => shape x = 1 :: [h; w; 3]) (map fst rs) /\
            Forall (fun x => shape x = 1 :: s') (map snd rs)).
  { clear Hdec Hne. induction Hfs as [| i fs Hi _ (rs & H2 & Hi' & Hm')].
    - exists []. repeat split; constructor.
    - destruct Hi as (j & px & Hj & Hpx & Hh & Hw & Ha).
      exists ((torch.unsqueeze0 (normalized (PIL.rgb j px)),
               torch.unsqueeze0 (mask_plane j)) :: rs).
      repeat split.
      + constructor; [| exact H2]. rewrite frame_cases, Hj, Hpx. reflexivity.
      + simpl map. constructor; [| exact Hi'].
        rewrite rgb_tensor_shape. congruence.
      + simpl map. constructor; [| exact Hm'].
        cbn [torch.unsqueeze0 shape]. rewrite mask_plane_shape, Ha, Hh, Hw.
        reflexivity. }
  destruct Hrs as (rs & H2 & Hi & Hm).
  assert (Hlen : List.length rs = List.length fs)
    by (symmetry; eapply Forall2_length; exact H2).
  destruct (@stack_returns (map fst rs) (map snd rs) [h; w; 3] s') as (img & msk & Hst);
    try assumption.
  - destruct rs, fs; simpl in *; congruence.
  - now rewrite !length_map.
  - exists img, msk. rewrite load_image_cases. cbv zeta. rewrite Hex, Hdec.
    rewrite (@frames_returns host _ _ [] [] H2). rewrite bind_ret.
    cbn [app]. rewrite Hst. reflexivity.
Qed.

(** Frames that disagree make [torch.cat] raise: an opaque frame followed
    by one with alpha gives masks of 64 by 64 and of 3 by 2. *)
Lemma mixed_frames_raise :
  let host := mk_Host "/" (fun _ => true)
                (fun _ => inr [Demo.rgb_2x3; Demo.rgba_2x3])
                (transpose Demo.host) (rgb_of Demo.host) in
  outcome (ParamImage.load_image host "a.png") =
    inl (RuntimeError "Sizes of tensors must match except in dimension 0").
Proof. vm_compute. reflexivity. Qed.

(* ================================================================== *)
(** * Further properties of the loader *)

(** ** Which exception, and when *)

Section Outcomes.

Variable host : Host.

Local Abbreviation frame := (ParamImage.frame host).
Local Abbreviation frames := (ParamImage.frames host).
Local Abbreviation load_image := (ParamImage.load_image host).
Local Abbreviation resolved := (ParamImage.resolved host).
Local Abbreviation stops_at := (stops_at host).

Lemma frames_inl (it : list PIL.Image) (ai am : list tensor) (e : exn) :
  outcome (frames it ai am) = inl e -> stops_at it e.
Proof.
  revert ai am. induction it as [| i it IH]; intros ai am; [discriminate |].
  simpl. intros H. apply bind_inl in H as [H | ([image mask] & Hi & H)].
  - exists [], i, it. repeat split; [constructor | exact H].
  - apply IH in H as (good & i' & rest & -> & Hgood & Hi').
    exists (i :: good), i', rest. repeat split; [| exact Hi'].
    constructor; [eauto | exact Hgood].
Qed.

Lemma frames_stops (it : list PIL.Image) (ai am : list tensor) (e : exn) :
  stops_at it e -> frames it ai am = ([], inl e).
Proof.
  intros (good & i & rest & -> & Hgood & Hi). revert ai am.
  induction Hgood as [| i0 good [[image mask] Hi0] _ IH]; intros ai am; simpl.
  - pose proof (frame_silent host i) as Ht.
    destruct (frame i) as [t [e' | r]]; simpl in Hi, Ht; [| discriminate].
    injection Hi as ->. subst t. reflexivity.
  - pose proof (frame_silent host i0) as Ht.
    destruct (frame i0) as [t [e' | r]]; simpl in Hi0, Ht; [discriminate |].
    injection Hi0 as ->. subst t.
    change (([] : list event), inr (image, mask) : exn + tensor * tensor)
      with (ret (image, mask)).
    rewrite bind_ret. apply IH.
Qed.

(** Frames that go through the loop body are frames Pillow converts, and
    the two tensors have the frame's shapes behind a leading one. *)
Lemma frame_inr_converts (i : PIL.Image) (r : tensor * tensor) :
  outcome (frame i) = inr r ->
  exists j, converts host i j /\
    shape (fst r) = 1 :: fst (frame_shapes j) /\
    shape (snd r) = 1 :: snd (frame_shapes j).
Proof.
  destruct r as [image mask]. intros H.
  apply frame_inr in H as (j & px & Hj & Hpx & -> & ->).
  exists j. repeat split; [exact Hj | eauto].
Qed.

Lemma converts_frame (i j : PIL.Image) :
  converts host i j ->
  exists r, outcome (frame i) = inr r /\
    shape (fst r) = 1 :: fst (frame_shapes j) /\
    shape (snd r) = 1 :: snd (frame_shapes j).
Proof.
  intros (Hj & px & Hpx). rewrite frame_cases, Hj, Hpx.
  eexists. repeat split.
Qed.

Lemma loop_results_converted (fs : list PIL.Image) (rs : list (tensor * tensor)) :
  Forall2 (fun i r => outcome (frame i) = inr r) fs rs ->
  exists js,
    Forall2 (converts host) fs js /\
    Forall2 (fun j r => shape (fst r) = 1 :: fst (frame_shapes j) /\
                        shape (snd r) = 1 :: snd (frame_shapes j)) js rs.
Proof.
  induction 1 as [| i r fs rs Hr _ (js & Hc & Hs)].
  - exists []. split; constructor.
  - apply frame_inr_converts in Hr as (j & Hj & Hshapes).
    exists (j :: js). split; constructor; assumption.
Qed.

Lemma converted_loop_results (fs js : list PIL.Image) :
  Forall2 (converts host) fs js ->
  exists rs,
    Forall2 (fun i r => outcome (frame i) = inr r) fs rs /\
    Forall2 (fun j r => shape (fst r) = 1 :: fst (frame_shapes j) /\
                        shape (snd r) = 1 :: snd (frame_shapes j)) js rs.
Proof.
  induction 1 as [| i j fs js Hij _ (rs & Hr & Hs)].
  - exists []. split; constructor.
  - apply converts_frame in Hij as (r & Hfr & Hshapes).
    exists (r :: rs). split; constructor; assumption.
Qed.

End Outcomes.

Lemma Forall2_In_l {A B} (R : A -> B -> Prop) (l : list A) (l' : list B) (a : A) :
  Forall2 R l l' -> In a l -> exists b, In b l' /\ R a b.
Proof.
  induction 1 as [| a0 b0 l l' Hab _ IH]; simpl; [contradiction |].
  intros [<- | Ha].
  - exists b0. auto.
  - destruct (IH Ha) as (b & Hb & HR). exists b. auto.
Qed.

(** The masks are laid out like the images. *)
Lemma stack_mask_layout (oi om : list tensor) (img msk : tensor) :
  Forall unit_batch om -> List.length oi = List.length om ->
  outcome (ParamImage.stack oi om) = inr (img, msk) ->
  exists s,
    Forall (fun x => shape x = 1 :: s) om /\
    shape msk = List.length om :: s /\
    data msk = List.concat (map (@data _) om).
Proof.
  intros Hom Hlen. unfold ParamImage.stack.
  destruct (Nat.ltb 1 (List.length oi)) eqn:Hmany; intros H.
  - apply bind_inr in H as (x & _ & H). apply bind_inr in H as (y & Hy & H).
    injection H as _ <-.
    destruct (cat_unit_batches Hom Hy) as [Hd _].
    apply cat_inr in Hy as (s & Htr & ->).
    exists s. repeat split.
    + rewrite Forall_forall in *. intros z Hz.
      apply unit_batch_shape; auto.
    + change (list_sum (map (@dim0 _) om) = List.length om) in Hd.
      cbn [shape]. now rewrite Hd.
  - apply bind_inr in H as (x & _ & H). apply bind_inr in H as (y & Hy & H).
    injection H as _ <-. apply getitem_inr in Hy.
    apply Nat.ltb_ge in Hmany. rewrite Hlen in Hmany.
    destruct om as [| y0 [| y1 om]]; [discriminate | | simpl in Hmany; lia].
    injection Hy as <-. inversion Hom as [| ? ? (Hd & Hne & _) _]. subst.
    unfold dim0 in Hd. destruct (shape y0) as [| d s] eqn:Hs; [contradiction |].
    simpl in Hd. subst d. exists s. repeat split.
    + constructor; [exact Hs | constructor].
    + simpl. now rewrite app_nil_r.
Qed.

Lemma stack_index_error (oi om : list tensor) :
  List.length oi = List.length om ->
  outcome (ParamImage.stack oi om) = inl IndexError -> oi = [].
Proof.
  intros Hlen. unfold ParamImage.stack.
  destruct (Nat.ltb 1 (List.length oi)); intros H.
  - apply bind_inl in H as [H | (x & _ & H)].
    { apply cat_raises in H as [what H]. discriminate. }
    apply bind_inl in H as [H | (y & _ & H)]; [| discriminate].
    apply cat_raises in H as [what H]. discriminate.
  - destruct oi as [| x oi]; [reflexivity |].
    destruct om as [| y om]; discriminate.
Qed.

Section Classification.

Variable host : Host.
Variable image_path : string.

Local Abbreviation p := (ParamImage.resolved host image_path).
Local Abbreviation load := (ParamImage.load_image host image_path).

(** Once the frames are through the loop, the result is that of lines
    171-176, after one existence test and one open. *)
Lemma load_image_after_loop (fs : list PIL.Image) (rs : list (tensor * tensor)) :
  path_exists host p = true -> decode host p = inr fs ->
  Forall2 (fun i r => outcome (ParamImage.frame host i) = inr r) fs rs ->
  load = ([EvExists p; EvOpen p],
          outcome (ParamImage.stack (map fst rs) (map snd rs))).
Proof.
  intros Hex Hdec Hrs. rewrite load_image_cases. cbv zeta. rewrite Hex, Hdec.
  rewrite (@frames_returns host _ _ [] [] Hrs), bind_ret. cbn [app].
  pose proof (stack_silent (map fst rs) (map snd rs)) as Ht.
  destruct (ParamImage.stack _ _) as [t r]. simpl in Ht. subst t. reflexivity.
Qed.

Lemma load_image_loop_stops (fs : list PIL.Image) (e : exn) :
  path_exists host p = true -> decode host p = inr fs ->
  stops_at host fs e ->
  load = ([EvExists p; EvOpen p], inl e).
Proof.
  intros Hex Hdec Hstop. rewrite load_image_cases. cbv zeta. rewrite Hex, Hdec.
  rewrite (frames_stops _ _ Hstop). reflexivity.
Qed.

(** Tensors that stack come from frames of the same shapes. *)
Lemma stacked_uniform (js : list PIL.Image) (rs : list (tensor * tensor))
      (img msk : tensor) :
  Forall2 (fun j r => shape (fst r) = 1 :: fst (frame_shapes j) /\
                      shape (snd r) = 1 :: snd (frame_shapes j)) js rs ->
  Forall unit_batch (map fst rs) -> Forall unit_batch (map snd rs) ->
  outcome (ParamImage.stack (map fst rs) (map snd rs)) = inr (img, msk) ->
  uniform js.
Proof.
  intros Hs Hui Hum Hst.
  destruct (stack_image_layout _ Hui Hst) as (s & Hsi & _ & _).
  destruct (stack_mask_layout _ Hum (eq_trans (length_map _ _)
              (eq_sym (length_map _ _))) Hst) as (s' & Hsm & _ & _).
  assert (Hall : forall j, In j js -> frame_shapes j = (s, s')).
  { intros j Hj. destruct (Forall2_In_l _ Hs Hj) as (r & Hr & H1 & H2).
    rewrite Forall_forall in Hsi, Hsm.
    specialize (Hsi _ (in_map fst _ _ Hr)). specialize (Hsm _ (in_map snd _ _ Hr)).
    destruct (frame_shapes j) as [a b]. simpl in H1, H2. congruence. }
  intros j j' Hj Hj'. rewrite (Hall j Hj), (Hall j' Hj'). reflexivity.
Qed.

(** Frames of the same shapes stack. *)
Lemma uniform_stacks (js : list PIL.Image) (rs : list (tensor * tensor)) :
  Forall2 (fun j r => shape (fst r) = 1 :: fst (frame_shapes j) /\
                      shape (snd r) = 1 :: snd (frame_shapes j)) js rs ->
  js <> [] -> uniform js ->
  exists img msk, ParamImage.stack (map fst rs) (map snd rs) = ret (img, msk).
Proof.
  intros Hs Hne Hu.
  destruct js as [| j0 js0] eqn:Hjs; [contradiction |]. rewrite <- Hjs in *.
  assert (Hj0 : In j0 js) by (rewrite Hjs; left; reflexivity).
  assert (Hall : forall r, In r rs ->
            shape (fst r) = 1 :: fst (frame_shapes j0) /\
            shape (snd r) = 1 :: snd (frame_shapes j0)).
  { intros r Hr. destruct (Forall2_In_r _ Hs Hr) as (j & Hj & H1 & H2).
    rewrite (Hu j0 j Hj0 Hj). auto. }
  apply (@stack_returns _ _ (fst (frame_shapes j0)) (snd (frame_shapes j0))).
  - apply Forall2_length in Hs. rewrite Hjs in Hs.
    destruct rs; [discriminate | discriminate].
  - now rewrite !length_map.
  - apply Forall_map, Forall_forall. intros r Hr. apply (Hall r Hr).
  - apply Forall_map, Forall_forall. intros r Hr. apply (Hall r Hr).
Qed.

(** X1. [load_image] returns a pair of tensors exactly when the resolved
    path exists, Pillow decodes at least one frame from it and converts
    every frame, and all frames give arrays of the same shapes (the same
    height and width, and masks of the same height and width). *)
Theorem load_image_returns_iff :
  (exists img msk, outcome load = inr (img, msk)) <->
  (path_exists host p = true /\
   exists fs js,
     decode host p = inr fs /\ fs <> [] /\
     Forall2 (converts host) fs js /\ uniform js).
Proof.
  split.
  - intros (img & msk & Hload).
    pose proof Hload as H. apply load_image_inr in H as (Hex & fs & rs & Hdec & Hrs & Hst).
    split; [exact Hex |].
    pose proof Hrs as H. apply loop_results_unit in H as (_ & Hui & Hum).
    pose proof Hrs as H. apply loop_results_converted in H as (js & Hc & Hs).
    exists fs, js. repeat split; try assumption.
    + intros ->. inversion Hrs; subst. discriminate.
    + eapply stacked_uniform; eassumption.
  - intros (Hex & fs & js & Hdec & Hne & Hc & Hu).
    pose proof Hc as H. apply converted_loop_results in H as (rs & Hrs & Hs).
    destruct (uniform_stacks Hs) as (img & msk & Hst); [| exact Hu |].
    + intros ->. inversion Hc; subst. contradiction.
    + exists img, msk. rewrite (load_image_after_loop Hex Hdec Hrs), Hst. reflexivity.
Qed.

(** X2. [load_image] raises the [RuntimeError] of [torch.cat] exactly
    when the path exists and Pillow decodes and converts every frame, but
    the frames do not all give arrays of the same shapes. *)
Theorem load_image_runtime_error_iff :
  (exists what, outcome load = inl (RuntimeError what)) <->
  (path_exists host p = true /\
   exists fs js,
     decode host p = inr fs /\
     Forall2 (converts host) fs js /\ ~ uniform js).
Proof.
  split.
  - intros (what & Hload).
    destruct (path_exists host p) eqn:Hex.
    2:{ rewrite load_image_cases in Hload. cbv zeta in Hload.
        rewrite Hex in Hload. discriminate. }
    split; [reflexivity |].
    destruct (decode host p) as [w | fs] eqn:Hdec.
    { rewrite load_image_cases in Hload. cbv zeta in Hload.
      rewrite Hex, Hdec in Hload. discriminate. }
    destruct (ParamImage.frames host fs [] []) as [t [e | [oi om]]] eqn:Hfr.
    { assert (Hstop : stops_at host fs e)
        by (apply (@frames_inl host fs [] []); rewrite Hfr; reflexivity).
      rewrite (load_image_loop_stops Hex Hdec Hstop) in Hload.
      injection Hload as ->.
      destruct Hstop as (_ & i & _ & _ & _ & Hi).
      apply frame_raises in Hi as [w Hw]. discriminate. }
    assert (Hout : outcome (ParamImage.frames host fs [] []) = inr (oi, om))
      by (rewrite Hfr; reflexivity).
    apply frames_inr in Hout as (rs & Hrs & -> & ->). simpl app in *.
    pose proof Hrs as H. apply loop_results_converted in H as (js & Hc & Hs).
    exists fs, js. repeat split; try assumption.
    intros Hu.
    destruct js as [| j0 js0] eqn:Hjs.
    + inversion Hc; subst. inversion Hrs; subst.
      rewrite (load_image_after_loop Hex Hdec Hrs) in Hload. discriminate.
    + rewrite <- Hjs in *.
      destruct (uniform_stacks Hs) as (img & msk & Hst); [| exact Hu |].
      * rewrite Hjs. discriminate.
      * rewrite (load_image_after_loop Hex Hdec Hrs), Hst in Hload. discriminate.
  - intros (Hex & fs & js & Hdec & Hc & Hnu).
    pose proof Hc as H. apply converted_loop_results in H as (rs & Hrs & Hs).
    pose proof Hrs as H. apply loop_results_unit in H as (_ & Hui & Hum).
    rewrite (load_image_after_loop Hex Hdec Hrs). cbn [outcome snd].
    destruct (outcome (ParamImage.stack (map fst rs) (map snd rs)))
      as [e | [img msk]] eqn:Hst.
    + apply stack_raises in Hst as Hkind. destruct Hkind as [[what ->] | ->].
      * eauto.
      * exfalso. apply stack_index_error in Hst; [| now rewrite !length_map].
        destruct rs; [| discriminate]. inversion Hs; subst.
        apply Hnu. intros j j' [].
    + exfalso. apply Hnu. eapply stacked_uniform; eassumption.
Qed.

(** X3. [load_image] raises [IndexError] exactly when the path exists
    and Pillow decodes no frame at all from it. *)
Theorem load_image_index_error_iff :
  outcome load = inl IndexError <->
  (path_exists host p = true /\ decode host p = inr []).
Proof.
  split.
  - intros Hload.
    destruct (path_exists host p) eqn:Hex.
    2:{ rewrite load_image_cases in Hload. cbv zeta in Hload.
        rewrite Hex in Hload. discriminate. }
    split; [reflexivity |].
    destruct (decode host p) as [w | fs] eqn:Hdec.
    { rewrite load_image_cases in Hload. cbv zeta in Hload.
      rewrite Hex, Hdec in Hload. discriminate. }
    destruct (ParamImage.frames host fs [] []) as [t [e | [oi om]]] eqn:Hfr.
    { assert (Hstop : stops_at host fs e)
        by (apply (@frames_inl host fs [] []); rewrite Hfr; reflexivity).
      rewrite (load_image_loop_stops Hex Hdec Hstop) in Hload.
      injection Hload as ->.
      destruct Hstop as (_ & i & _ & _ & _ & Hi).
      apply frame_raises in Hi as [w Hw]. discriminate. }
    assert (Hout : outcome (ParamImage.frames host fs [] []) = inr (oi, om))
      by (rewrite Hfr; reflexivity).
    apply frames_inr in Hout as (rs & Hrs & -> & ->). simpl app in *.
    rewrite (load_image_after_loop Hex Hdec Hrs) in Hload. cbn [outcome snd] in Hload.
    apply stack_index_error in Hload; [| now rewrite !length_map].
    destruct rs; [| discriminate]. inversion Hrs; subst. reflexivity.
  - intros (Hex & Hdec). rewrite load_image_cases. cbv zeta.
    rewrite Hex, Hdec. reflexivity.
Qed.

(** X4. What Pillow raises reaches the caller unchanged: [load_image]
    raises a Pillow exception exactly when the path exists and either
    Pillow raises it on opening the file, or the loop stops with it at
    the first frame Pillow fails to bring upright or to convert. *)
Theorem load_image_pillow_error_iff (what : string) :
  outcome load = inl (PillowError what) <->
  (path_exists host p = true /\
   (decode host p = inl what \/
    exists fs, decode host p = inr fs /\ stops_at host fs (PillowError what))).
Proof.
  split.
  - intros Hload.
    destruct (path_exists host p) eqn:Hex.
    2:{ rewrite load_image_cases in Hload. cbv zeta in Hload.
        rewrite Hex in Hload. discriminate. }
    split; [reflexivity |].
    destruct (decode host p) as [w | fs] eqn:Hdec.
    { rewrite load_image_cases in Hload. cbv zeta in Hload.
      rewrite Hex, Hdec in Hload. injection Hload as ->. left. reflexivity. }
    right. exists fs. split; [reflexivity |].
    destruct (ParamImage.frames host fs [] []) as [t [e | [oi om]]] eqn:Hfr.
    { assert (Hstop : stops_at host fs e)
        by (apply (@frames_inl host fs [] []); rewrite Hfr; reflexivity).
      rewrite (load_image_loop_stops Hex Hdec Hstop) in Hload.
      injection Hload as ->. exact Hstop. }
    assert (Hout : outcome (ParamImage.frames host fs [] []) = inr (oi, om))
      by (rewrite Hfr; reflexivity).
    apply frames_inr in Hout as (rs & Hrs & -> & ->). simpl app in *.
    rewrite (load_image_after_loop Hex Hdec Hrs) in Hload. cbn [outcome snd] in Hload.
    apply stack_raises in Hload as [[w H] | H]; discriminate.
  - intros (Hex & [Hdec | (fs & Hdec & Hstop)]).
    + rewrite load_image_cases. cbv zeta. rewrite Hex, Hdec. reflexivity.
    + rewrite (load_image_loop_stops Hex Hdec Hstop). reflexivity.
Qed.

(** X5. Whatever the host, [load_image] raises nothing but
    [FileNotFoundError], a Pillow exception, the [RuntimeError] of
    [torch.cat] or [IndexError]; in particular the [ValueError] of
    [getchannel] never gets out, the band being tested for first. *)
Theorem load_image_exceptions (e : exn) :
  outcome load = inl e ->
  (exists msg, e = FileNotFoundError msg) \/ (exists what, e = PillowError what) \/
  (exists what, e = RuntimeError what) \/ e = IndexError.
Proof.
  intros Hload. destruct (path_exists host p) eqn:Hex.
  - right. eapply load_image_found_raises; eassumption.
  - left. rewrite load_image_cases in Hload. cbv zeta in Hload.
    rewrite Hex in Hload. injection Hload as <-. eauto.
Qed.

End Classification.

Lemma load_image_exceptions_witness :
  exists what,
    outcome (ParamImage.load_image Demo.host "input/broken.png") = inl (PillowError what).
Proof.
  destruct (@load_image_exceptions Demo.host "input/broken.png"
              (PillowError "cannot identify image file") eq_refl)
    as [[msg H] | [[what H] | [[what H] | H]]]; try discriminate.
  exists what. rewrite <- H. reflexivity.
Defined.

(** ** The mask tensor *)

Lemma mask_plane_samples (j : PIL.Image) (v : f32.t) :
  In v (data (mask_plane j)) -> f32.in_unit v = true.
Proof.
  unfold mask_plane. destruct (PIL.index "A" (PIL.getbands j)) as [b |].
  - unfold torch.rsub, torch.from_numpy. cbn [data].
    rewrite in_map_iff. intros (u & <- & Hu).
    apply normalized_samples in Hu as (c & -> & _).
    apply inverted_sample_in_unit.
  - unfold torch.zeros. cbn [data]. intros Hv.
    apply repeat_spec in Hv. subst v. reflexivity.
Qed.

(** X6. The mask tensor [load_image] returns has three dimensions: the
    number of frames, then the height and width of every frame if the
    frames have a band named A and 64 by 64 if they have none.  Its data
    fill that shape and every element lies between 0 and 1 inclusive. *)
Theorem load_image_mask_tensor (host : Host) (image_path : string)
        (fs : list PIL.Image) (img msk : tensor) :
  decode host (ParamImage.resolved host image_path) = inr fs ->
  outcome (ParamImage.load_image host image_path) = inr (img, msk) ->
  exists h w,
    shape msk = [List.length fs; h; w] /\
    well_shaped msk /\
    (forall k i, nth_error fs k = Some i ->
       exists j, transpose host i = inr j /\
         [h; w] = if PIL.has_band "A" j then [PIL.height j; PIL.width j] else [64; 64]) /\
    (forall v, In v (data msk) -> f32.in_unit v = true).
Proof.
  intros Hdec Hload.
  pose proof Hload as H. apply load_image_inr in H as (_ & fs' & rs & Hdec' & Hrs & Hst).
  assert (fs' = fs) by congruence. subst fs'.
  pose proof Hrs as H. apply loop_results_unit in H as (Hlen & _ & Hum).
  apply stack_mask_layout in Hst as (s & Hshapes & Hshape & Hdata);
    [| exact Hum | now rewrite !length_map].
  rewrite length_map, Hlen in Hshape.
  assert (Hframe : forall r, In r rs ->
            exists i j, In i fs /\ transpose host i = inr j /\
              snd r = torch.unsqueeze0 (mask_plane j) /\
              s = shape (mask_plane j)).
  { intros [image mask] Hr.
    destruct (Forall2_In_r _ Hrs Hr) as (i & Hi & Hfr).
    apply frame_inr in Hfr as (j & px & Hj & _ & _ & ->).
    exists i, j. repeat split; try assumption.
    rewrite Forall_forall in Hshapes.
    specialize (Hshapes _ (in_map snd _ _ Hr)). cbn [snd torch.unsqueeze0 shape] in Hshapes.
    congruence. }
  assert (Hne : exists r, In r rs).
  { destruct rs as [| r0 rs0]; [| exists r0; left; reflexivity].
    exfalso. inversion Hrs; subst. rewrite load_image_cases in Hload. cbv zeta in Hload.
    destruct (path_exists host _); [| discriminate].
    rewrite Hdec in Hload. discriminate. }
  assert (Hs : exists h w, s = [h; w]).
  { destruct Hne as [r Hr].
    destruct (Hframe r Hr) as (_ & j & _ & _ & _ & ->).
    rewrite mask_plane_shape. destruct (PIL.has_band "A" j); eauto. }
  destruct Hs as (h & w & ->).
  exists h, w. repeat split.
  - exact Hshape.
  - unfold well_shaped. rewrite Hdata, Hshape.
    rewrite (@length_concat_const _ (h * (w * 1))).
    + rewrite !length_map, Hlen. reflexivity.
    + apply Forall_map. rewrite Forall_forall in *. intros x Hx.
      apply Hum in Hx as Hu. apply Hshapes in Hx as Hsx.
      destruct Hu as (_ & _ & Hw). unfold well_shaped in Hw.
      rewrite Hw, Hsx. simpl. lia.
  - intros k i Hi.
    destruct (Forall2_nth_error_l Hrs _ Hi) as (r & Hr & Hfr).
    apply nth_error_In in Hr.
    destruct r as [image mask].
    apply frame_inr in Hfr as (j & px & Hj & _ & _ & ->).
    exists j. split; [exact Hj |].
    rewrite Forall_forall in Hshapes.
    specialize (Hshapes _ (in_map snd _ _ Hr)). cbn [snd torch.unsqueeze0 shape] in Hshapes.
    rewrite mask_plane_shape in Hshapes. congruence.
  - intros v Hv. rewrite Hdata in Hv. apply in_concat in Hv as (l & Hl & Hv).
    apply in_map_iff in Hl as (x & <- & Hx).
    apply in_map_iff in Hx as (r & <- & Hr).
    destruct (Hframe r Hr) as (_ & j & _ & _ & Hsnd & _).
    rewrite Hsnd in Hv. cbn [torch.unsqueeze0 data] in Hv.
    eapply mask_plane_samples. exact Hv.
Qed.

Lemma load_image_mask_tensor_witness :
  exists img msk,
    outcome (ParamImage.load_image Demo.host "input/anim.png") = inr (img, msk) /\
    shape msk = [2; 3; 2] /\
    Forall (fun v => f32.in_unit v = true) (data msk).
Proof.
  eexists _, _. split; [vm_compute; reflexivity |].
  destruct (@load_image_mask_tensor Demo.host "input/anim.png"
              [Demo.rgba_2x3; Demo.rgba_2x3'] _ _ eq_refl eq_refl)
    as (h & w & Hshape & _ & _ & Hrange).
  split.
  - reflexivity.
  - apply Forall_forall. intros v Hv. exact (Hrange v Hv).
Defined.

(** ** The image tensor, pixel by pixel *)

Lemma at3_in_range {A} (a : ndarray A) (h w c row col ch : nat) :
  shape a = [h; w; c] -> row < h -> col < w -> ch < c ->
  at3 a row col ch = nth_error (data a) ((row * w + col) * c + ch).
Proof.
  intros Hs Hr Hc Hch. unfold at3. rewrite Hs.
  apply Nat.ltb_lt in Hr, Hc, Hch. now rewrite Hr, Hc, Hch.
Qed.

(** Row [y], column [x], band [c] of the array of an RGB image. *)
Lemma to_array_rgb (j : PIL.Image) (px : nat -> nat -> Byte.byte * Byte.byte * Byte.byte)
      (x y c : nat) :
  x < PIL.width j -> y < PIL.height j -> c < 3 ->
  nth_error (data (PIL.to_array (PIL.rgb j px))) ((y * PIL.width j + x) * 3 + c) =
  Some (channel (px x y) c).
Proof.
  intros Hx Hy Hc. unfold PIL.to_array, PIL.rgb.
  cbn [PIL.getbands PIL.width PIL.height PIL.sample data List.length].
  replace ((y * PIL.width j + x) * 3 + c) with (y * (PIL.width j * 3) + (x * 3 + c)) by lia.
  rewrite (nth_error_flat_map_const _ (n := PIL.width j * 3) (seq 0 (PIL.height j)) y
             (j := x * 3 + c) (a := y)).
  - cbv beta.
    rewrite (nth_error_flat_map_const _ (n := 3) (seq 0 (PIL.width j)) x (j := c) (a := x)).
    + cbv beta. rewrite nth_error_map, nth_error_seq0 by exact Hc. reflexivity.
    + intros x0. now rewrite length_map, length_seq.
    + apply nth_error_seq0. exact Hx.
    + exact Hc.
  - intros y0. cbv beta.
    rewrite (flat_map_length_const _ (n := 3)).
    + now rewrite length_seq.
    + intros x0. now rewrite length_map, length_seq.
  - apply nth_error_seq0. exact Hy.
  - nia.
Qed.

(** X7. In what [load_image] returns, the image slice of every frame is
    laid out rows first, then columns, then the three colour channels in
    the order red, green, blue: the element at row [y], column [x],
    channel [c] is that sample of the frame's RGB conversion divided by
    255 (in binary32). *)
Theorem load_image_pixels (host : Host) (image_path : string)
        (fs : list PIL.Image) (img msk : tensor) :
  decode host (ParamImage.resolved host image_path) = inr fs ->
  outcome (ParamImage.load_image host image_path) = inr (img, msk) ->
  forall k i, nth_error fs k = Some i ->
    exists j px,
      transpose host i = inr j /\ rgb_of host j = inr px /\
      shape (select0 img k) = [PIL.height j; PIL.width j; 3] /\
      forall x y c, x < PIL.width j -> y < PIL.height j -> c < 3 ->
        at3 (select0 img k) y x c =
        Some (f32.div (f32.of_uint8 (channel (px x y) c)) f32.c255).
Proof.
  intros Hdec Hload k i Hi.
  pose proof Hload as H. apply load_image_slices in H as (fs' & Hdec' & _ & _ & Hk).
  assert (fs' = fs) by congruence. subst fs'.
  destruct (Hk k i Hi) as (j & px & Hj & Hpx & _ & -> & _).
  exists j, px. repeat split; try assumption.
  intros x y c Hx Hy Hc.
  rewrite (@at3_in_range _ _ (PIL.height j) (PIL.width j) 3); [| reflexivity | assumption ..].
  rewrite normalized_data, nth_error_map, to_array_rgb by assumption. reflexivity.
Qed.

Lemma load_image_pixels_witness :
  exists img msk,
    outcome (ParamImage.load_image Demo.host "input/opaque.png") = inr (img, msk) /\
    at3 (select0 img 0) 2 1 1 = Some (f32.div (f32.of_uint8 Byte.x44) f32.c255).
Proof.
  eexists _, _. split; [vm_compute; reflexivity |].
  destruct (@load_image_pixels Demo.host "input/opaque.png" [Demo.rgb_2x3] _ _
              eq_refl eq_refl 0 Demo.rgb_2x3 eq_refl) as (j & px & Hj & Hpx & _ & Hat).
  injection Hj as <-. injection Hpx as <-.
  apply (Hat 1 2 1); simpl; lia.
Defined.

(** ** Paths and file accesses *)

Lemma resolved_of_absolute (host : Host) (q : string) :
  os_path.isabs q = true -> ParamImage.resolved host q = q.
Proof. intros H. unfold ParamImage.resolved. now rewrite H. Qed.

(** The result depends on the given path through the resolved path only. *)
Lemma load_image_same_resolved (host : Host) (q q' : string) :
  ParamImage.resolved host q = ParamImage.resolved host q' ->
  ParamImage.load_image host q = ParamImage.load_image host q'.
Proof. intros H. rewrite !load_image_cases. cbv zeta. now rewrite H. Qed.

(** X8. With an absolute base directory, resolving is idempotent: the
    resolved path resolves to itself, and loading the resolved path does
    exactly what loading the given path does. *)
Theorem load_image_resolved_path (host : Host) (image_path : string) :
  os_path.isabs (base_path host) = true ->
  ParamImage.resolved host (ParamImage.resolved host image_path) =
    ParamImage.resolved host image_path /\
  ParamImage.load_image host (ParamImage.resolved host image_path) =
    ParamImage.load_image host image_path.
Proof.
  intros Hbase.
  assert (H : ParamImage.resolved host (ParamImage.resolved host image_path) =
              ParamImage.resolved host image_path)
    by (apply resolved_of_absolute, resolved_isabs; exact Hbase).
  split; [exact H |]. apply load_image_same_resolved. exact H.
Qed.

Lemma load_image_resolved_path_witness :
  ParamImage.load_image Demo.host "/opt/ComfyUI/input/anim.png" =
  ParamImage.load_image Demo.host "input/anim.png".
Proof.
  exact (proj2 (@load_image_resolved_path Demo.host "input/anim.png" eq_refl)).
Defined.

(** With [posixpath] for [os.path], the resolved path ends with the path
    given, and it is absolute exactly when the given path or the base
    directory is.  ([ntpath] merges and replaces drives: there neither
    holds.) *)
Lemma resolved_shape (host : Host) (image_path : string) :
  (exists front : string,
     ParamImage.resolved host image_path = (front ++ image_path)%string) /\
  os_path.isabs (ParamImage.resolved host image_path) =
    (os_path.isabs image_path || os_path.isabs (base_path host))%bool.
Proof.
  unfold ParamImage.resolved, os_path.join, os_path.isabs.
  destruct (os_path.startswith_sep image_path) eqn:Hp; cbn [negb].
  - split; [exists EmptyString; reflexivity | exact Hp].
  - destruct (base_path host) as [| c base] eqn:Hb.
    + cbn. split; [exists EmptyString; reflexivity | now rewrite Hp].
    + destruct (String.eqb (String c base) EmptyString
                || os_path.endswith_sep (String c base))%bool.
      * split; [exists (String c base); reflexivity | reflexivity].
      * split; [| reflexivity].
        exists (String c base ++ String os_path.sep EmptyString)%string.
        clear. induction (String c base) as [| d s IH]; [reflexivity |].
        cbn. now rewrite <- IH.
Qed.

(** X10. [load_image] tests the resolved path once, opens it once if it
    is there, and touches the file system in no other way, however many
    frames the file has and whatever becomes of them. *)
Theorem load_image_file_accesses (host : Host) (image_path : string) :
  let p := ParamImage.resolved host image_path in
  trace (ParamImage.load_image host image_path) =
  if path_exists host p then [EvExists p; EvOpen p] else [EvExists p].
Proof.
  intros p. rewrite load_image_trace. fold p.
  destruct (path_exists host p); reflexivity.
Qed.

(* ================================================================== *)
(** * Further properties of the marker and of the registry *)

Lemma by_order_ne (a b : string) :
  Py.by_order Py.Py_NE (String.compare a b) = negb (String.eqb a b).
Proof.
  destruct (String.eqb_spec a b) as [<- | Hab].
  - rewrite compare_refl. reflexivity.
  - destruct (String.compare a b) eqn:Hc; try reflexivity.
    exfalso. apply Hab. apply String.compare_eq_iff. exact Hc.
Qed.

Lemma by_order_swapped (op : Py.cmpop) (a b : string) :
  Py.by_order (Py.swapped op) (String.compare a b) =
  Py.by_order op (String.compare b a).
Proof.
  rewrite (String.compare_antisym b a).
  destruct op; destruct (String.compare a b); reflexivity.
Qed.

Section MarkerFacts.

Variable other_mro : nat -> list Py.class.
Variable other_defines : nat -> string -> bool.
Variable other_compare : nat -> Py.cmpop -> Py.obj -> Py.obj -> Py.answer.
Variable other_text : nat -> nat -> string.
Variable other_number : nat -> nat -> Z.

Local Abbreviation asked_first := (Py.asked_first other_mro).
Local Abbreviation tp_richcompare :=
  (Py.tp_richcompare other_mro other_defines other_compare other_text other_number).
Local Abbreviation ne :=
  (Py.ne other_mro other_defines other_compare other_text other_number).
Local Abbreviation eq :=
  (Py.eq other_mro other_defines other_compare other_text other_number).
Local Abbreviation richcompare :=
  (Py.richcompare other_mro other_defines other_compare other_text other_number).


(** X12. For every comparison other than [!=], an instance of [AnyType]
    compares as the string it holds would, on either side of a string and
    against another instance; in particular [==] is equality of the
    strings held. *)
Theorem AnyType_compares_like_str (a b : string) (op : Py.cmpop) :
  op <> Py.Py_NE ->
  richcompare (Py.VAnyType a) (Py.VStr b) op = richcompare (Py.VStr a) (Py.VStr b) op /\
  richcompare (Py.VStr a) (Py.VAnyType b) op = richcompare (Py.VStr a) (Py.VStr b) op /\
  richcompare (Py.VAnyType a) (Py.VAnyType b) op = richcompare (Py.VStr a) (Py.VStr b) op /\
  eq (Py.VAnyType a) (Py.VStr b) = ([], inr (String.eqb a b)).
Proof.
  intros Hop. split; [| split; [| split]].
  - destruct op; try contradiction; reflexivity.
  - unfold Py.richcompare, Py.tp_richcompare.
    cbn [Py.type Py.class_eqb Py.issubclass Py.mro existsb negb andb orb].
    assert (Hres : Py.resolve other_mro other_defines Py.CAnyType (Py.opname (Py.swapped op))
                   = Some Py.Cstr) by (destruct op; try contradiction; reflexivity).
    assert (Hres' : Py.resolve other_mro other_defines Py.Cstr (Py.opname op) = Some Py.Cstr)
      by (destruct op; reflexivity).
    rewrite Hres, Hres'. cbn [Py.method Py.str_compare Py.str_value].
    rewrite by_order_swapped. reflexivity.
  - destruct op; try contradiction; reflexivity.
  - apply AnyType_eq_str.
Qed.

(** X13. Among the registered nodes only [ParamUniversal] declares the
    marker as an output type; every other output type tag is an ordinary
    string.  [!=] tells two ordinary tags apart exactly when their texts
    differ, and it never tells the marker apart from a tag, on either
    side. *)
Theorem output_tags (name : string) (c : node_class) (tag : Py.obj) :
  In (name, c) node_classes -> In tag (nc_RETURN_TYPES c) ->
  (if String.eqb name "ParamUniversal" then tag = any
   else exists a, tag = Py.VStr a /\
          forall t, ne tag (Py.VStr t) = ([], inr (negb (String.eqb a t)))) /\
  (forall t, ne any (Py.VStr t) = ([], inr false) /\
             ne (Py.VStr t) any = ([], inr false)).
Proof.
  intros Hc Htag. split.
  - assert (Hplain : forall a t,
              ne (Py.VStr a) (Py.VStr t) = ([], inr (negb (String.eqb a t)))).
    { intros a t. unfold Py.ne, Py.richcompare, Py.tp_richcompare.
      cbn [Py.type Py.class_eqb negb andb Py.opname].
      change (Py.resolve other_mro other_defines Py.Cstr "__ne__") with (Some Py.Cstr).
      cbn [Py.method Py.str_compare Py.str_value].
      rewrite by_order_ne. reflexivity. }
    unfold node_classes in Hc. simpl in Hc.
    repeat (destruct Hc as [Hc | Hc];
            [injection Hc as <- <-; simpl in Htag;
             repeat (destruct Htag as [<- | Htag];
                     [cbn [String.eqb Ascii.eqb Bool.eqb];
                      first [reflexivity
                            | eexists; split; [reflexivity | apply Hplain]] |]);
             contradiction |]).
    contradiction.
  - intros t. split; reflexivity.
Qed.

End MarkerFacts.


Lemma AnyType_compares_like_str_witness :
  Py.richcompare Plain.mro Plain.defines Plain.compare Plain.text Plain.number
    any (Py.VStr "MODEL") Py.Py_LT = ([], inr true) /\
  Py.eq Plain.mro Plain.defines Plain.compare Plain.text Plain.number
    any (Py.VStr "MODEL") = ([], inr false).
Proof.
  assert (Hop : Py.Py_LT <> Py.Py_NE) by discriminate.
  destruct (@AnyType_compares_like_str Plain.mro Plain.defines Plain.compare
              Plain.text Plain.number "*" "MODEL" Py.Py_LT Hop)
    as (H & _ & _ & He).
  split; [exact (eq_trans H eq_refl) | exact He].
Defined.

Lemma output_tags_witness :
  Py.ne Plain.mro Plain.defines Plain.compare Plain.text Plain.number
    (Py.VStr "IMAGE") (Py.VStr "MASK") = ([], inr true) /\
  Py.ne Plain.mro Plain.defines Plain.compare Plain.text Plain.number
    any (Py.VStr "MASK") = ([], inr false).
Proof.
  destruct (@output_tags Plain.mro Plain.defines Plain.compare Plain.text Plain.number
              "ParamImage"
              (mk_node_class ParamImage.CATEGORY ParamImage.FUNCTION
                 ParamImage.RETURN_TYPES None ParamImage.INPUT_TYPES ParamImage.methods)
              (Py.VStr "IMAGE")) as [Hplain Hany].
  - unfold node_classes. simpl. tauto.
  - simpl. tauto.
  - cbn in Hplain. destruct Hplain as (a & [= <-] & Hne).
    split; [exact (Hne "MASK") | exact (proj1 (Hany "MASK"))].
Defined.

(** X14. The two registry tables have the same keys, once each and in
    the same order, so every registered class has a display name and no
    name is shadowed.  For every registered class the method [FUNCTION]
    names exists, its parameters are exactly the required inputs the
    schema declares, in order, and [RETURN_NAMES], where declared, has as
    many entries as [RETURN_TYPES]. *)
Theorem registry_consistent :
  map fst NODE_CLASS_MAPPINGS = map fst NODE_DISPLAY_NAME_MAPPINGS /\
  NoDup (map fst NODE_CLASS_MAPPINGS) /\
  map (fun nc => (fst nc, nc_FUNCTION (snd nc))) node_classes = NODE_CLASS_MAPPINGS /\
  (forall name c, In (name, c) node_classes ->
     assoc (nc_FUNCTION c) (nc_methods c) = Some (required_inputs c) /\
     map fst (nc_INPUT_TYPES c) = ["required"] /\
     forall names, nc_RETURN_NAMES c = Some names ->
       List.length names = List.length (nc_RETURN_TYPES c)).
Proof.
  split; [reflexivity |]. split.
  - simpl. repeat constructor; simpl; intuition discriminate.
  - split; [reflexivity |].
    intros name c Hc. unfold node_classes in Hc. simpl in Hc.
    repeat (destruct Hc as [Hc | Hc];
            [injection Hc as <- <-; repeat split; intros names [= <-]; reflexivity |]).
    contradiction.
Qed.

(** X15. Every input widget that declares a default together with a
    minimum and a maximum has its default between the two: 0 within 0 and
    2^64 - 1 for [ParamInt], whose maximum [0xffffffffffffffff] is that
    number, and 1.0 within -100.0 and 100.0 for [ParamFloat]. *)
Theorem defaults_in_range :
  (forall name c section inputs input w,
     In (name, c) node_classes -> In (section, inputs) (nc_INPUT_TYPES c) ->
     In (input, w) inputs -> default_in_range w = true) /\
  assoc "value" (match assoc "required" ParamInt.INPUT_TYPES with
                 | Some inputs => inputs | None => [] end)
  = Some ("INT", Some [("default", OInt 0); ("min", OInt 0);
                       ("max", OInt (2 ^ 64 - 1))]).
Proof.
  split; [| reflexivity].
  intros name c section inputs input w Hc Hs Hi.
  unfold node_classes in Hc. simpl in Hc.
  repeat (destruct Hc as [Hc | Hc];
          [injection Hc as <- <-; simpl in Hs;
           destruct Hs as [Hs | []]; injection Hs as <- <-; simpl in Hi;
           repeat (destruct Hi as [Hi | Hi]; [injection Hi as <- <-; reflexivity |]);
           contradiction |]).
  contradiction.
Qed.

(** ** The outcomes on the small hosts *)

Lemma load_image_returns_iff_witness :
  exists img msk,
    outcome (ParamImage.load_image Demo.host "input/anim.png") = inr (img, msk).
Proof.
  apply (proj2 (load_image_returns_iff Demo.host "input/anim.png")).
  split; [reflexivity |].
  exists [Demo.rgba_2x3; Demo.rgba_2x3'], [Demo.rgba_2x3; Demo.rgba_2x3'].
  repeat split.
  - discriminate.
  - repeat constructor; eexists; reflexivity.
  - intros j j' [<- | [<- | []]] [<- | [<- | []]]; reflexivity.
Defined.

Lemma load_image_runtime_error_iff_witness :
  exists what,
    outcome (ParamImage.load_image Demo.mixed "a.png") = inl (RuntimeError what).
Proof.
  apply (proj2 (load_image_runtime_error_iff Demo.mixed "a.png")).
  split; [reflexivity |].
  exists [Demo.rgb_2x3; Demo.rgba_2x3], [Demo.rgb_2x3; Demo.rgba_2x3].
  repeat split.
  - repeat constructor; eexists; reflexivity.
  - intros Hu.
    specialize (Hu Demo.rgb_2x3 Demo.rgba_2x3 (or_introl eq_refl)
                   (or_intror (or_introl eq_refl))).
    vm_compute in Hu. discriminate Hu.
Defined.

Lemma load_image_index_error_iff_witness :
  outcome (ParamImage.load_image Demo.empty "a.png") = inl IndexError.
Proof.
  apply (proj2 (load_image_index_error_iff Demo.empty "a.png")).
  split; reflexivity.
Defined.

Lemma load_image_pillow_error_iff_witness :
  outcome (ParamImage.load_image Demo.host "input/broken.png") =
  inl (PillowError "cannot identify image file").
Proof.
  apply (proj2 (load_image_pillow_error_iff Demo.host "input/broken.png" _)).
  split; [reflexivity |]. left. reflexivity.
Defined.

(** ** Mixing frames with and without alpha *)

(** X16. If [load_image] returns for a file that has both a frame
    without a band named A and a frame with one, those frames are 64 by
    64: only then does the mask computed from alpha have the size of the
    fixed plane of zeros. *)
Theorem load_image_mixed_alpha (host : Host) (image_path : string)
        (fs : list PIL.Image) (img msk : tensor)
        (k k' : nat) (i i' j j' : PIL.Image) :
  decode host (ParamImage.resolved host image_path) = inr fs ->
  outcome (ParamImage.load_image host image_path) = inr (img, msk) ->
  nth_error fs k = Some i -> transpose host i = inr j ->
  nth_error fs k' = Some i' -> transpose host i' = inr j' ->
  PIL.has_band "A" j = false -> PIL.has_band "A" j' = true ->
  (PIL.height j = 64 /\ PIL.width j = 64) /\
  (PIL.height j' = 64 /\ PIL.width j' = 64).
Proof.
  intros Hdec Hload Hi Hj Hi' Hj' Hopaque Halpha.
  pose proof Hload as H. apply load_image_slices in H as (fs' & Hdec' & _ & _ & Hk).
  assert (fs' = fs) by congruence. subst fs'.
  destruct (Hk k i Hi) as (j0 & px & Hj0 & _ & _ & Himg & Hmsk).
  destruct (Hk k' i' Hi') as (j0' & px' & Hj0' & _ & _ & Himg' & Hmsk').
  assert (j0 = j) by congruence. assert (j0' = j') by congruence. subst j0 j0'.
  assert (Hsi : shape (normalized (PIL.rgb j px)) = shape (normalized (PIL.rgb j' px')))
    by (rewrite <- Himg, <- Himg'; reflexivity).
  assert (Hsm : shape (mask_plane j) = shape (mask_plane j'))
    by (rewrite <- Hmsk, <- Hmsk'; reflexivity).
  rewrite !mask_plane_shape, Hopaque, Halpha in Hsm.
  injection Hsm as Hh' Hw'.
  change ([PIL.height j; PIL.width j; 3] = [PIL.height j'; PIL.width j'; 3]) in Hsi.
  injection Hsi as Hh Hw.
  repeat split; congruence.
Qed.

Lemma load_image_mixed_alpha_witness :
  exists img msk,
    outcome (ParamImage.load_image Demo.mixed64 "a.png") = inr (img, msk) /\
    PIL.height Demo.rgba_64 = 64 /\ PIL.width Demo.rgba_64 = 64.
Proof.
  set (r := ParamImage.load_image Demo.mixed64 "a.png").
  set (img := match outcome r with inr (a, _) => a | inl _ => torch.zeros [] end).
  set (msk := match outcome r with inr (_, b) => b | inl _ => torch.zeros [] end).
  assert (Hload : outcome r = inr (img, msk))
    by (vm_cast_no_check (eq_refl (outcome r))).
  exists img, msk. split; [exact Hload |].
  exact (proj2 (@load_image_mixed_alpha Demo.mixed64 "a.png"
                  [Demo.rgb_64; Demo.rgba_64] img msk 0 1
                  Demo.rgb_64 Demo.rgba_64 Demo.rgb_64 Demo.rgba_64
                  eq_refl Hload eq_refl eq_refl eq_refl eq_refl eq_refl eq_refl)).
Defined.

(** ** Scaling of the samples *)

Lemma uint8_as_nat (b : Byte.byte) :
  f32.of_uint8 b = f32.of_Z (Z.of_nat (Stdlib.Strings.Byte.to_nat b)).
Proof.
  unfold f32.of_uint8. rewrite Stdlib.Strings.Byte.to_nat_via_N, N_nat_Z. reflexivity.
Qed.

(** All pairs of 8-bit samples, checked by evaluation on the table of
    the 256 scaled values. *)
Lemma scaling_checked :
  let vs := map (fun n => f32.div (f32.of_Z (Z.of_nat n)) f32.c255) (seq 0 256) in
  let ws := map (fun v => f32.sub f32.one v) vs in
  forallb (fun n =>
    forallb (fun m =>
      implb (Nat.ltb n m)
        (SFltb (nth n vs f32.zero) (nth m vs f32.zero)
         && SFltb (nth m ws f32.zero) (nth n ws f32.zero)))
      (seq 0 256))
    (seq 0 256) = true.
Proof. vm_compute. reflexivity. Qed.

Lemma scaled_table (n : nat) :
  n < 256 ->
  nth n (map (fun n => f32.div (f32.of_Z (Z.of_nat n)) f32.c255) (seq 0 256)) f32.zero
  = f32.div (f32.of_Z (Z.of_nat n)) f32.c255.
Proof.
  intros Hn.
  rewrite (nth_indep _ f32.zero
             ((fun n => f32.div (f32.of_Z (Z.of_nat n)) f32.c255) 0))
    by (rewrite length_map, length_seq; exact Hn).
  rewrite (map_nth (fun n => f32.div (f32.of_Z (Z.of_nat n)) f32.c255)).
  rewrite seq_nth by exact Hn. reflexivity.
Qed.

Lemma inverted_table (n : nat) :
  n < 256 ->
  nth n (map (fun v => f32.sub f32.one v)
           (map (fun n => f32.div (f32.of_Z (Z.of_nat n)) f32.c255) (seq 0 256)))
      f32.zero
  = f32.sub f32.one (f32.div (f32.of_Z (Z.of_nat n)) f32.c255).
Proof.
  intros Hn.
  rewrite (nth_indep _ f32.zero ((fun v => f32.sub f32.one v) f32.zero))
    by (rewrite !length_map, length_seq; exact Hn).
  rewrite (map_nth (fun v => f32.sub f32.one v)).
  rewrite scaled_table by exact Hn. reflexivity.
Qed.

(** X17. Scaling keeps the ends and the order of the samples: 0 becomes
    exactly 0.0 and 255 exactly 1.0, a mask is exactly 1.0 where alpha is
    0 and exactly 0.0 where alpha is 255, and of two different samples the
    larger one gives the strictly larger image value and the strictly
    smaller mask value, so no two samples collapse in binary32. *)
Theorem sample_scaling :
  (f32.div (f32.of_uint8 Byte.x00) f32.c255 = f32.zero /\
   f32.div (f32.of_uint8 Byte.xff) f32.c255 = f32.one /\
   f32.sub f32.one (f32.div (f32.of_uint8 Byte.x00) f32.c255) = f32.one /\
   f32.sub f32.one (f32.div (f32.of_uint8 Byte.xff) f32.c255) = f32.zero) /\
  (forall b b' : Byte.byte,
     (Byte.to_N b < Byte.to_N b')%N ->
     SFltb (f32.div (f32.of_uint8 b) f32.c255)
           (f32.div (f32.of_uint8 b') f32.c255) = true /\
     SFltb (f32.sub f32.one (f32.div (f32.of_uint8 b') f32.c255))
           (f32.sub f32.one (f32.div (f32.of_uint8 b) f32.c255)) = true).
Proof.
  split; [repeat split; vm_compute; reflexivity |].
  intros b b' Hlt. rewrite !uint8_as_nat.
  pose proof scaling_checked as Hall. cbv zeta in Hall. rewrite forallb_forall in Hall.
  assert (Hb : In (Stdlib.Strings.Byte.to_nat b) (seq 0 256)).
  { apply in_seq. pose proof (Stdlib.Strings.Byte.to_nat_bounded b). lia. }
  assert (Hb' : In (Stdlib.Strings.Byte.to_nat b') (seq 0 256)).
  { apply in_seq. pose proof (Stdlib.Strings.Byte.to_nat_bounded b'). lia. }
  specialize (Hall _ Hb). rewrite forallb_forall in Hall. specialize (Hall _ Hb').
  assert (Hnat : Nat.ltb (Stdlib.Strings.Byte.to_nat b) (Stdlib.Strings.Byte.to_nat b') = true).
  { apply Nat.ltb_lt. rewrite !Stdlib.Strings.Byte.to_nat_via_N. lia. }
  rewrite Hnat in Hall. cbn [implb] in Hall.
  apply in_seq in Hb, Hb'.
  rewrite !scaled_table, !inverted_table in Hall by lia.
  apply andb_prop in Hall. exact Hall.
Qed.

Lemma sample_scaling_witness :
  SFltb (f32.div (f32.of_uint8 Byte.x7f) f32.c255)
        (f32.div (f32.of_uint8 Byte.x80) f32.c255) = true.
Proof.
  apply (proj2 sample_scaling Byte.x7f Byte.x80). reflexivity.
Defined.

Lemma registry_consistent_witness :
  assoc HelperModelSwitch.FUNCTION HelperModelSwitch.methods =
  Some ["model_a"; "model_b"; "select_b"].
Proof.
  destruct registry_consistent as (_ & _ & _ & Hall).
  destruct (Hall "HelperModelSwitch"
              (mk_node_class HelperModelSwitch.CATEGORY HelperModelSwitch.FUNCTION
                 HelperModelSwitch.RETURN_TYPES (Some HelperModelSwitch.RETURN_NAMES)
                 HelperModelSwitch.INPUT_TYPES HelperModelSwitch.methods))
    as (Hentry & _ & _).
  - unfold node_classes. simpl. tauto.
  - exact Hentry.
Defined.

Lemma defaults_in_range_witness :
  default_in_range
    ("FLOAT", Some [("default", OFloat (f64.whole 1));
                    ("min", OFloat (f64.minus (f64.whole 100)));
                    ("max", OFloat (f64.whole 100));
                    ("step", OFloat f64.hundredth);
                    ("display", OStr "number")]) = true.
Proof.
  destruct defaults_in_range as (Hall & _).
  apply (Hall "ParamFloat"
           (mk_node_class ParamFloat.CATEGORY ParamFloat.FUNCTION ParamFloat.RETURN_TYPES
              (Some ParamFloat.RETURN_NAMES) ParamFloat.INPUT_TYPES ParamFloat.methods)
           "required"
           [("value", ("FLOAT", Some [("default", OFloat (f64.whole 1));
                                      ("min", OFloat (f64.minus (f64.whole 100)));
                                      ("max", OFloat (f64.whole 100));
                                      ("step", OFloat f64.hundredth);
                                      ("display", OStr "number")]))]
           "value").
  - unfold node_classes. simpl. tauto.
  - simpl. tauto.
  - simpl. tauto.
Defined.
